(** * The safe cache utility ([getCached], [invalidateCache],
      [invalidateCaches], [preCache], [isCacheValid])

    A shallow embedding of the TypeScript cache manager: promises are
    values that settle after a delay (or never), [withTimeout] is the
    timer race, and an async function is a computation over a world made
    of the key-value store, the clock, the console and the counters of
    store operations and of [fetchFn] invocations. *)

From Stdlib Require Import ZArith NArith String List Lia.
From stdpp Require Import base option gmap strings.

Local Open Scope string_scope.
Local Open Scope Z_scope.

(** ** JavaScript values and truthiness *)

#[local] Set Warnings "-register-all".

Inductive jsval : Type :=
| JUndefined
| JNull
| JBool (b : bool)
| JNum (n : Z)
| JNaN
| JStr (s : string)
| JArr (items : list jsval)
| JObj (fields : list (string * jsval)).

(** [if (v)]: undefined, null, false, 0, NaN and the empty string are
    falsy, every array and object is truthy. *)
Definition truthy (v : jsval) : bool :=
  match v with
  | JUndefined | JNull | JNaN => false
  | JBool b => b
  | JNum n => negb (n =? 0)
  | JStr s => negb (String.eqb s "")
  | JArr _ | JObj _ => true
  end.

(** ** Cache entries and configuration *)

Record CacheEntry : Type := mkEntry {
  data : jsval;
  timestamp : Z;
  version : string
}.

Definition CACHE_VERSION : string := "1.0.0".

(** Every field of [CacheConfig] is optional. *)
Record CacheConfig : Type := mkConfig {
  ttl : option Z;
  prefix : option string;
  timeout : option Z
}.

(** [config = {}] *)
Definition no_config : CacheConfig :=
  {| ttl := None; prefix := None; timeout := None |}.

Definition ttl_of (config : CacheConfig) : Z :=
  default (5 * 60 * 1000) (ttl config).
Definition prefix_of (config : CacheConfig) : string :=
  default "cache" (prefix config).
Definition timeout_of (config : CacheConfig) : Z :=
  default 10000 (timeout config).

(** [`${prefix}:${key}`] *)
Definition cacheKey (pre key : string) : string :=
  (pre ++ ":" ++ key)%string.

(** ** Promises *)

Inductive error : Type :=
| TimedOut (ms : Z)
| Failure (msg : string).

Inductive settled (A : Type) : Type :=
| Fulfilled (a : A)
| Rejected (e : error).
Arguments Fulfilled {A} a.
Arguments Rejected {A} e.

(** A promise settles [after] milliseconds with an outcome, or never. *)
Inductive promise (A : Type) : Type :=
| Settles (after : N) (o : settled A)
| Never.
Arguments Settles {A} after o.
Arguments Never {A}.

(** The timer race. [setTimeout] clamps a negative delay to zero. A
    promise that has settled by the time the timer is due wins the race:
    its reaction is queued before the timer callback runs. *)
Definition withTimeout {A : Type} (p : promise A) (ms : Z) : promise A :=
  match p with
  | Settles d o =>
      if (d <=? Z.to_N ms)%N then Settles d o
      else Settles (Z.to_N ms) (Rejected (TimedOut ms))
  | Never => Settles (Z.to_N ms) (Rejected (TimedOut ms))
  end.

(** Earliest rejection of a list of promises, the first one on a tie. *)
Fixpoint first_rejection {A : Type} (ps : list (promise A))
  : option (N * error) :=
  match ps with
  | [] => None
  | p :: rest =>
      match p, first_rejection rest with
      | Settles d (Rejected e), Some (d', e') =>
          if (d' <? d)%N then Some (d', e') else Some (d, e)
      | Settles d (Rejected e), None => Some (d, e)
      | _, r => r
      end
  end.

(** When every promise is fulfilled: the latest delay and the values. *)
Fixpoint all_fulfilled {A : Type} (ps : list (promise A))
  : option (N * list A) :=
  match ps with
  | [] => Some (0%N, [])
  | Settles d (Fulfilled a) :: rest =>
      match all_fulfilled rest with
      | Some (d', vs) => Some (N.max d d', a :: vs)
      | None => None
      end
  | _ :: _ => None
  end.

(** [Promise.all]: rejects with the first rejection, is fulfilled once
    all are, and stays pending otherwise. *)
Definition promise_all {A : Type} (ps : list (promise A))
  : promise (list A) :=
  match first_rejection ps with
  | Some (d, e) => Settles d (Rejected e)
  | None =>
      match all_fulfilled ps with
      | Some (d, vs) => Settles d (Fulfilled vs)
      | None => Never
      end
  end.

(** ** The world an async function runs in *)

Inductive log_event : Type :=
| UsingCached (key : string)
| FetchingFresh (key : string)
| ErrorFetching (key : string) (e : error)
| UsingStale (key : string)
| Invalidating (key : string)
| InvalidatingMany (n : nat)
| PreCached (key : string)
| PreCacheFailed (key : string) (e : error).

Record world : Type := mkWorld {
  store : gmap string CacheEntry;
  clock : Z;
  console : list log_event;
  io_ops : nat;
  fetch_calls : nat
}.

Definition set_store (m : gmap string CacheEntry) (w : world) : world :=
  {| store := m; clock := clock w; console := console w;
     io_ops := io_ops w; fetch_calls := fetch_calls w |}.
Definition advance (d : N) (w : world) : world :=
  {| store := store w; clock := clock w + Z.of_N d; console := console w;
     io_ops := io_ops w; fetch_calls := fetch_calls w |}.
Definition write_console (ev : log_event) (w : world) : world :=
  {| store := store w; clock := clock w; console := ev :: console w;
     io_ops := io_ops w; fetch_calls := fetch_calls w |}.
Definition count_io (w : world) : world :=
  {| store := store w; clock := clock w; console := console w;
     io_ops := S (io_ops w); fetch_calls := fetch_calls w |}.
Definition count_fetch (w : world) : world :=
  {| store := store w; clock := clock w; console := console w;
     io_ops := io_ops w; fetch_calls := S (fetch_calls w) |}.

(** How a run of an async function ends: it returns, it throws (the
    promise it stands for rejects), or it waits for ever. *)
Inductive result (A : Type) : Type :=
| Return (a : A) (w : world)
| Throw (e : error) (w : world)
| Hang (w : world).
Arguments Return {A} a w.
Arguments Throw {A} e w.
Arguments Hang {A} w.

Definition async (A : Type) : Type := world -> result A.

Definition ret {A : Type} (a : A) : async A := fun w => Return a w.

Definition bind {A B : Type} (c : async A) (k : A -> async B) : async B :=
  fun w =>
    match c w with
    | Return a w' => k a w'
    | Throw e w' => Throw e w'
    | Hang w' => Hang w'
    end.

(** [try { body } catch (e) { handler }] *)
Definition try_catch {A : Type} (body : async A) (handler : error -> async A)
  : async A :=
  fun w =>
    match body w with
    | Return a w' => Return a w'
    | Throw e w' => handler e w'
    | Hang w' => Hang w'
    end.

(** [await p]: the clock moves on to the moment [p] settles. *)
Definition await {A : Type} (p : promise A) : async A :=
  fun w =>
    match p with
    | Settles d (Fulfilled a) => Return a (advance d w)
    | Settles d (Rejected e) => Throw e (advance d w)
    | Never => Hang w
    end.

(** [Date.now()] *)
Definition date_now : async Z := fun w => Return (clock w) w.

(** [console.log] and [console.error] *)
Definition console_log (ev : log_event) : async unit :=
  fun w => Return tt (write_console ev w).

Declare Scope async_scope.
Delimit Scope async_scope with async.
Notation "'let!' x ':=' c 'in' k" := (bind c (fun x => k))
  (at level 10, x name, c at level 100, k at level 200) : async_scope.
Notation "c1 ';;' c2" := (bind c1 (fun _ => c2))
  (at level 100, c2 at level 200, right associativity) : async_scope.
Local Open Scope async_scope.

(** A [fetchFn]: the promise its n-th invocation returns. *)
Definition fetcher : Type := nat -> promise jsval.

Definition invoke (fetchFn : fetcher) : async (promise jsval) :=
  fun w => Return (fetchFn (fetch_calls w)) (count_fetch w).

(** ** The key-value store collaborator *)

(** How one store operation goes: it completes after a delay, it fails
    after a delay, or it never completes. *)
Inductive io : Type :=
| IoDone (after : N)
| IoError (after : N) (e : error)
| IoStall.

Section CacheManager.

(** The behaviour of the n-th store operation issued. *)
Variable env : nat -> io.

(** Modelled from the spec: the module [./storage], from which the cache
    manager imports [load], [save] and [remove], is missing. The three
    operations return promises; [load] is fulfilled with the stored
    value, or with null for a missing key, and rejects on an I/O failure;
    an operation that completes takes effect on the store in the order of
    issue, one that fails or stalls leaves the store as it is. *)
Definition load (k : string) : async (promise (option CacheEntry)) :=
  fun w =>
    let p := match env (io_ops w) with
             | IoDone d => Settles d (Fulfilled (store w !! k))
             | IoError d e => Settles d (Rejected e)
             | IoStall => Never
             end in
    Return p (count_io w).

Definition save (k : string) (entry : CacheEntry) : async (promise unit) :=
  fun w =>
    match env (io_ops w) with
    | IoDone d =>
        Return (Settles d (Fulfilled tt))
               (count_io (set_store (<[k := entry]> (store w)) w))
    | IoError d e => Return (Settles d (Rejected e)) (count_io w)
    | IoStall => Return Never (count_io w)
    end.

Definition remove (k : string) : async (promise unit) :=
  fun w =>
    match env (io_ops w) with
    | IoDone d =>
        Return (Settles d (Fulfilled tt))
               (count_io (set_store (delete k (store w)) w))
    | IoError d e => Return (Settles d (Rejected e)) (count_io w)
    | IoStall => Return Never (count_io w)
    end.

(** ** The cache manager *)

(** [cached && cached.version === CACHE_VERSION &&
     Date.now() - cached.timestamp < ttl] *)
Definition entry_valid (now ttl_ms : Z) (cached : option CacheEntry) : bool :=
  match cached with
  | Some c => String.eqb (version c) CACHE_VERSION
              && (now - timestamp c <? ttl_ms)
  | None => false
  end.

Definition getCached (key : string) (fetchFn : fetcher) (config : CacheConfig)
  : async jsval :=
  let ttl_ms := ttl_of config in
  let pre := prefix_of config in
  let timeout_ms := timeout_of config in
  let ck := cacheKey pre key in
  try_catch
    (let! cached :=
       try_catch
         (let! p := load ck in await (withTimeout p 2000))
         (fun _ => ret None) in
     let! now := date_now in
     let isCacheValid := entry_valid now ttl_ms cached in
     match isCacheValid, cached with
     | true, Some c =>
         console_log (UsingCached key);;
         ret (data c)
     | _, _ =>
         console_log (FetchingFresh key);;
         let! fp := invoke fetchFn in
         let! freshData := await (withTimeout fp timeout_ms) in
         (if truthy freshData then
            let! now' := date_now in
            let! sp := save ck {| data := freshData; timestamp := now';
                                  version := CACHE_VERSION |} in
            ret tt
          else ret tt);;
         ret freshData
     end)
    (fun err =>
       console_log (ErrorFetching key err);;
       let! stale :=
         try_catch
           (let! p := load ck in
            let! cached := await (withTimeout p 1000) in
            match cached with
            | Some c =>
                if truthy (data c) then
                  console_log (UsingStale key);;
                  ret (Some (data c))
                else ret None
            | None => ret None
            end)
           (fun _ => ret None) in
       match stale with
       | Some v => ret v
       | None => ret JNull
       end).

(** The call [invalidateCache(key, prefix)] up to its only [await]: the
    removal is issued and the promise of the call settles as the
    removal does. *)
Definition invalidateCache_call (key : string) (pre : option string)
  : async (promise unit) :=
  let ck := cacheKey (default "cache" pre) key in
  console_log (Invalidating key);;
  remove ck.

(** [await invalidateCache(key, prefix)] *)
Definition invalidateCache (key : string) (pre : option string) : async unit :=
  let! p := invalidateCache_call key pre in
  await p.

(** [keys.map((key) => invalidateCache(key, prefix))]: the calls are made
    one after the other, each one issuing its removal. *)
Fixpoint invalidate_each (keys : list string) (pre : option string)
  : async (list (promise unit)) :=
  match keys with
  | [] => ret []
  | key :: rest =>
      let! p := invalidateCache_call key pre in
      let! ps := invalidate_each rest pre in
      ret (p :: ps)
  end.

Definition invalidateCaches (keys : list string) (pre : option string)
  : async unit :=
  console_log (InvalidatingMany (length keys));;
  let! ps := invalidate_each keys pre in
  let! _ := await (promise_all ps) in
  ret tt.

Definition preCache (key : string) (fetchFn : fetcher) (config : CacheConfig)
  : async unit :=
  let pre := prefix_of config in
  let ck := cacheKey pre key in
  try_catch
    (let! fp := invoke fetchFn in
     let! fresh := await fp in
     if truthy fresh then
       let! now := date_now in
       let! sp := save ck {| data := fresh; timestamp := now;
                             version := CACHE_VERSION |} in
       await sp;;
       console_log (PreCached key)
     else ret tt)
    (fun err => console_log (PreCacheFailed key err)).

Definition isCacheValid (key : string) (ttl_ms : option Z)
    (pre : option string) : async bool :=
  try_catch
    (let ck := cacheKey (default "cache" pre) key in
     let! p := load ck in
     let! cached := await p in
     let! now := date_now in
     ret (entry_valid now (default (5 * 60 * 1000) ttl_ms) cached))
    (fun _ => ret false).

End CacheManager.

(** * Definitions used by the statements *)

Definition final_world {A : Type} (r : result A) : world :=
  match r with
  | Return _ w | Throw _ w | Hang w => w
  end.

Definition hangs {A : Type} (r : result A) : bool :=
  match r with
  | Hang _ => true
  | _ => false
  end.

(** [c] settles (it returns or throws) at most [b] milliseconds after it
    is started. *)
Definition takes_at_most {A : Type} (b : Z) (c : async A) : Prop :=
  forall w,
    hangs (c w) = false /\
    clock w <= clock (final_world (c w)) <= clock w + b.

(** ** The three phases of [getCached]

    The body of [getCached] read as its bounded read, its fetch and its
    fallback; [getCached_phases] checks that this reading is the function
    itself. *)

Definition first_read (env : nat -> io) (ck : string)
  : async (option CacheEntry) :=
  try_catch
    (let! p := load env ck in await (withTimeout p 2000))
    (fun _ => ret None).

Definition fetch_fresh (env : nat -> io) (key ck : string)
    (fetchFn : fetcher) (timeout_ms : Z) : async jsval :=
  console_log (FetchingFresh key);;
  let! fp := invoke fetchFn in
  let! freshData := await (withTimeout fp timeout_ms) in
  (if truthy freshData then
     let! now' := date_now in
     let! sp := save env ck {| data := freshData; timestamp := now';
                               version := CACHE_VERSION |} in
     ret tt
   else ret tt);;
  ret freshData.

Definition stale_fallback (env : nat -> io) (key ck : string) (err : error)
  : async jsval :=
  console_log (ErrorFetching key err);;
  let! stale :=
    try_catch
      (let! p := load env ck in
       let! cached := await (withTimeout p 1000) in
       match cached with
       | Some c =>
           if truthy (data c) then
             console_log (UsingStale key);;
             ret (Some (data c))
           else ret None
       | None => ret None
       end)
      (fun _ => ret None) in
  match stale with
  | Some v => ret v
  | None => ret JNull
  end.

(** ** Concrete stores, worlds and fetch functions *)

(** A store whose every operation completes after 5 ms. *)
Definition quick_store : nat -> io := fun _ => IoDone 5.

Definition fetch_products : fetcher :=
  fun _ => Settles 30 (Fulfilled (JArr [JObj [("id", JNum 1)]])).
Definition fetch_offline : fetcher :=
  fun _ => Settles 10 (Rejected (Failure "Network request failed")).
Definition fetch_zero : fetcher :=
  fun _ => Settles 30 (Fulfilled (JNum 0)).

Definition empty_world : world :=
  {| store := ∅; clock := 1000000; console := [];
     io_ops := 0; fetch_calls := 0 |}.

(** An entry written ten seconds ago under the current version. *)
Definition recent_entry : CacheEntry :=
  {| data := JArr [JObj [("id", JNum 7)]]; timestamp := 990000;
     version := "1.0.0" |}.

Definition warm_world : world :=
  {| store := {[ "cache:products" := recent_entry ]}; clock := 1000000;
     console := []; io_ops := 0; fetch_calls := 0 |}.

(** A store that never answers, and a fetch that never settles. *)
Definition stalled_store : nat -> io := fun _ => IoStall.
Definition fetch_hanging : fetcher := fun _ => Never.

(** An expired entry of the current version whose data is the number 0. *)
Definition zero_entry : CacheEntry :=
  {| data := JNum 0; timestamp := 100000; version := "1.0.0" |}.

Definition zero_world : world :=
  {| store := {[ "cache:count" := zero_entry ]}; clock := 1000000;
     console := []; io_ops := 0; fetch_calls := 0 |}.

(** An entry written long ago by a previous version of the application. *)
Definition old_entry : CacheEntry :=
  {| data := JStr "stale"; timestamp := 0; version := "0.9.0" |}.

Definition old_world : world :=
  {| store := {[ "cache:products" := old_entry ]}; clock := 1000000;
     console := []; io_ops := 0; fetch_calls := 0 |}.

(** The promise a removal hands back, by the behaviour of the store. *)
Definition removal_promise (o : io) : promise unit :=
  match o with
  | IoDone d => Settles d (Fulfilled tt)
  | IoError d e => Settles d (Rejected e)
  | IoStall => Never
  end.

(** A store whose first operation fails and whose later ones complete. *)
Definition first_fails : nat -> io :=
  fun n => match n with
           | O => IoError 5 (Failure "disk I/O error")
           | S _ => IoDone 5
           end.

Definition two_keys_world : world :=
  {| store := {[ "cache:k1" := recent_entry; "cache:k2" := recent_entry ]};
     clock := 1000000; console := []; io_ops := 0; fetch_calls := 0 |}.

(** A fetch that takes a whole hour to answer. *)
Definition fetch_slow : fetcher :=
  fun _ => Settles 3600000 (Fulfilled (JStr "late")).

(** A store whose first operation never completes and whose later ones
    complete after 5 ms. *)
Definition first_stalls : nat -> io :=
  fun n => match n with
           | O => IoStall
           | S _ => IoDone 5
           end.

(** A store that takes three seconds for each of its operations. *)
Definition sluggish_store : nat -> io := fun _ => IoDone 3000.

(** A store whose first operation fails after 50 ms and whose later ones
    fail after 5 ms. *)
Definition late_then_early_failures : nat -> io :=
  fun n => match n with
           | O => IoError 50 (Failure "first key")
           | S _ => IoError 5 (Failure "second key")
           end.

(** * Definitions for the further properties *)

From Stdlib Require Import Ascii.

(** ** The invariant of the stored entries

    Every entry holds truthy data and a timestamp that is not in the
    future. *)
Definition store_ok (w : world) : Prop :=
  forall k e,
    store w !! k = Some e ->
    truthy (data e) = true /\ timestamp e <= clock w.

(** A store that is slow to read: its operations take three seconds. *)
Definition slow_store : nat -> io := fun _ => IoDone 3000.

(** A store that can be read but not written: its first operation
    completes and the later ones fail. *)
Definition read_only_store : nat -> io :=
  fun n => match n with
           | O => IoDone 5
           | S _ => IoError 5 (Failure "disk full")
           end.

(** Whether a prefix is free of the separator of cache keys. *)
Fixpoint no_colon (s : string) : bool :=
  match s with
  | EmptyString => true
  | String c rest => negb (Ascii.eqb c ":"%char) && no_colon rest
  end.

(** ** Product images (the product service)

    The helpers that turn the image paths of the database rows into the
    URLs the screens show. An image URL is a string or undefined. *)

Definition SUPABASE_STORAGE_URL : string :=
  "https://enbrhhuubjvapadqyvds.supabase.co/storage/v1/object/public/products".

(** [s.startsWith(p)] *)
Definition startsWith (s p : string) : bool := String.prefix p s.

(** [!imageUrl]: undefined, or the empty string. *)
Definition absent (imageUrl : option string) : bool :=
  match imageUrl with
  | None => true
  | Some u => String.eqb u ""
  end.

Definition isValidImageUrl (imageUrl : option string) : bool :=
  match imageUrl with
  | None => false
  | Some u =>
      if absent imageUrl then false
      else if startsWith u "http://" || startsWith u "https://" then true
      else if startsWith u "/winter/" || startsWith u "/perfums/" then false
      else true
  end.

Definition getFullImageUrl (imageUrl : option string) : option string :=
  match imageUrl with
  | None => None
  | Some u =>
      if absent imageUrl then None
      else if startsWith u "http://" || startsWith u "https://" then Some u
      else Some (SUPABASE_STORAGE_URL ++ u)%string
  end.

(** The rows of the query: a product with its images and videos, each of
    the two an array or not. *)
Record product_image : Type := mkImage {
  image_url : option string;
  is_primary : bool
}.

Record product_video : Type := mkVideo {
  video_url : option string
}.

Record product_row : Type := mkRow {
  row_fields : list (string * jsval);
  product_images : option (list product_image);
  product_videos : option (list product_video)
}.

Record product_view : Type := mkView {
  view_fields : list (string * jsval);
  view_image_url : option string;
  view_video_url : option string;
  hasValidImage : bool
}.

(** [a || b] on image URLs. *)
Definition url_or (a b : option string) : option string :=
  if absent a then b else a.

(** [images.find((img) => img.is_primary)?.image_url
     || images[0]?.image_url], or undefined when [images] is no array. *)
Definition primaryImage (images : option (list product_image))
  : option string :=
  match images with
  | Some imgs =>
      url_or
        (match List.find is_primary imgs with
         | Some img => image_url img
         | None => None
         end)
        (match imgs with
         | img :: _ => image_url img
         | [] => None
         end)
  | None => None
  end.

(** [Array.isArray(videos) && videos.length > 0
     ? videos[0]?.video_url : undefined] *)
Definition videoUrl (videos : option (list product_video)) : option string :=
  match videos with
  | Some (v :: _) => video_url v
  | _ => None
  end.

Definition transformProduct (product : product_row) : product_view :=
  let primary := primaryImage (product_images product) in
  {| view_fields := row_fields product;
     view_image_url := getFullImageUrl primary;
     view_video_url := videoUrl (product_videos product);
     hasValidImage := isValidImageUrl primary |}.

(** [(products || []).map(transformProduct)
       .filter(product => product._hasValidImage)] *)
Definition shown_products (products : option (list product_row))
  : list product_view :=
  List.filter hasValidImage (List.map transformProduct (default [] products)).

(** Rows for the examples. *)
Definition shirt_row : product_row :=
  {| row_fields := [("name", JStr "Shirt")];
     product_images :=
       Some [ {| image_url := Some "/shirts/back.jpg"; is_primary := false |};
              {| image_url := Some "/shirts/front.jpg"; is_primary := true |} ];
     product_videos := Some [] |}.

Definition coat_row : product_row :=
  {| row_fields := [("name", JStr "Coat")];
     product_images :=
       Some [ {| image_url := Some "/winter/coat.jpg"; is_primary := true |};
              {| image_url := Some "https://cdn.example.com/coat.jpg";
                 is_primary := false |} ];
     product_videos := None |}.

(** * Properties *)

Arguments getCached env key fetchFn config w : simpl never.

(** ** Proof tools *)

(** Boolean tests of the code turned into arithmetic facts. *)
Ltac bool_facts :=
  repeat match goal with
  | H : (_ <=? _)%N = true |- _ => apply N.leb_le in H
  | H : (_ <=? _)%N = false |- _ => apply N.leb_gt in H
  | H : (_ <? _)%N = true |- _ => apply N.ltb_lt in H
  | H : (_ <? _)%N = false |- _ => apply N.ltb_ge in H
  | H : (_ <? _)%Z = true |- _ => apply Z.ltb_lt in H
  | H : (_ <? _)%Z = false |- _ => apply Z.ltb_ge in H
  | H : (_ && _)%bool = true |- _ => apply andb_true_iff in H; destruct H
  end.

(** ** Validity is lost for good *)

Lemma entry_valid_later now now' ttl_ms cached :
  now <= now' ->
  entry_valid now ttl_ms cached = false ->
  entry_valid now' ttl_ms cached = false.
Proof.
  intros Hle. destruct cached as [c|]; simpl; auto.
  rewrite !andb_false_iff. intros [Hv | Ht]; [now left | right].
  apply Z.ltb_ge in Ht. apply Z.ltb_ge. lia.
Qed.

Lemma entry_valid_true now ttl_ms c :
  version c = CACHE_VERSION ->
  now - timestamp c < ttl_ms ->
  entry_valid now ttl_ms (Some c) = true.
Proof.
  intros Hv Ht. simpl. rewrite Hv. simpl.
  now apply Z.ltb_lt.
Qed.

(** ** Time taken by a computation *)

Section Latency.
Context {A B : Type}.

Lemma takes_ret (a : A) : takes_at_most 0 (ret a).
Proof. intros w. simpl. split; [reflexivity | lia]. Qed.

Lemma takes_weaken b b' (c : async A) :
  b <= b' -> takes_at_most b c -> takes_at_most b' c.
Proof. intros Hb Hc w. destruct (Hc w). split; [assumption | lia]. Qed.

Lemma takes_bind b1 b2 b (c : async A) (k : A -> async B) :
  takes_at_most b1 c ->
  (forall a, takes_at_most b2 (k a)) ->
  0 <= b2 /\ b1 + b2 <= b ->
  takes_at_most b (bind c k).
Proof.
  intros Hc Hk Hb w. unfold bind.
  destruct (Hc w) as [Hh Hw]. destruct (c w) as [a w1|e w1|w1]; simpl in *.
  - destruct (Hk a w1) as [Hh' Hw']. split; [assumption | lia].
  - split; [reflexivity | lia].
  - discriminate.
Qed.

Lemma takes_try_catch b1 b2 b (body : async A) (handler : error -> async A) :
  takes_at_most b1 body ->
  (forall e, takes_at_most b2 (handler e)) ->
  0 <= b2 /\ b1 + b2 <= b ->
  takes_at_most b (try_catch body handler).
Proof.
  intros Hc Hk Hb w. unfold try_catch.
  destruct (Hc w) as [Hh Hw]. destruct (body w) as [a w1|e w1|w1]; simpl in *.
  - split; [reflexivity | lia].
  - destruct (Hk e w1) as [Hh' Hw']. split; [assumption | lia].
  - discriminate.
Qed.

(** A promise raced against a timer is awaited for the timer's delay
    at most. *)
Lemma takes_await_withTimeout (p : promise A) (ms : Z) :
  takes_at_most (Z.max 0 ms) (await (withTimeout p ms)).
Proof.
  intros w. unfold await, withTimeout.
  destruct p as [d [a|e]|]; simpl.
  - destruct (d <=? Z.to_N ms)%N eqn:Hd; simpl; bool_facts;
      (split; [reflexivity | lia]).
  - destruct (d <=? Z.to_N ms)%N eqn:Hd; simpl; bool_facts;
      (split; [reflexivity | lia]).
  - split; [reflexivity | lia].
Qed.
End Latency.

Lemma takes_load env k : takes_at_most 0 (load env k).
Proof. intros w. unfold load. simpl. split; [reflexivity | lia]. Qed.

Lemma takes_save env k entry : takes_at_most 0 (save env k entry).
Proof.
  intros w. unfold save.
  destruct (env (io_ops w)); simpl; (split; [reflexivity | lia]).
Qed.

Lemma takes_invoke fetchFn : takes_at_most 0 (invoke fetchFn).
Proof. intros w. simpl. split; [reflexivity | lia]. Qed.

Lemma takes_date_now : takes_at_most 0 date_now.
Proof. intros w. simpl. split; [reflexivity | lia]. Qed.

Lemma takes_console_log ev : takes_at_most 0 (console_log ev).
Proof. intros w. simpl. split; [reflexivity | lia]. Qed.

(** ** The phases of [getCached] *)

Lemma getCached_phases env key fetchFn config :
  getCached env key fetchFn config =
  let ck := cacheKey (prefix_of config) key in
  try_catch
    (let! cached := first_read env ck in
     let! now := date_now in
     match entry_valid now (ttl_of config) cached, cached with
     | true, Some c => console_log (UsingCached key);; ret (data c)
     | _, _ => fetch_fresh env key ck fetchFn (timeout_of config)
     end)
    (stale_fallback env key ck).
Proof. reflexivity. Qed.

(** The bounded read never fails the call: it hands over the stored
    value when the store answers in time and null otherwise, and it
    leaves the store alone. *)
Lemma first_read_spec env ck w :
  exists c d,
    first_read env ck w = Return c (advance d (count_io w)) /\
    (d <= 2000)%N /\
    (c = None \/ c = store w !! ck).
Proof.
  unfold first_read, try_catch, bind, load, await, withTimeout, ret.
  destruct (env (io_ops w)) as [d|d e|]; cbn.
  - destruct (d <=? 2000)%N eqn:Hd; cbn; bool_facts.
    + exists (store w !! ck), d. auto.
    + exists None, 2000%N. split; [reflexivity | split; [lia | auto]].
  - destruct (d <=? 2000)%N eqn:Hd; cbn; bool_facts.
    + exists None, d. auto.
    + exists None, 2000%N. split; [reflexivity | split; [lia | auto]].
  - exists None, 2000%N. split; [reflexivity | split; [lia | auto]].
Qed.

Lemma first_read_in_time env ck w d :
  env (io_ops w) = IoDone d ->
  (d <= 2000)%N ->
  first_read env ck w = Return (store w !! ck) (advance d (count_io w)).
Proof.
  intros Henv Hd.
  unfold first_read, try_catch, bind, load, await, withTimeout.
  rewrite Henv. apply N.leb_le in Hd. cbn. rewrite Hd. reflexivity.
Qed.

(** A read that finds no valid entry in the store leads to the fetch. *)
Lemma first_read_miss env ck ttl_ms w :
  entry_valid (clock w) ttl_ms (store w !! ck) = false ->
  exists c d,
    first_read env ck w = Return c (advance d (count_io w)) /\
    (d <= 2000)%N /\
    entry_valid (clock w + Z.of_N d) ttl_ms c = false.
Proof.
  intros Hmiss.
  destruct (first_read_spec env ck w) as (c & d & Hrun & Hd & [-> | ->]).
  - exists None, d. auto.
  - exists (store w !! ck), d. repeat split; auto.
    apply (entry_valid_later (clock w)); [lia | assumption].
Qed.

Lemma fetch_fresh_rejected env key ck fetchFn timeout_ms w d err :
  withTimeout (fetchFn (fetch_calls w)) timeout_ms = Settles d (Rejected err) ->
  fetch_fresh env key ck fetchFn timeout_ms w
    = Throw err (advance d (count_fetch
                              (write_console (FetchingFresh key) w))).
Proof.
  intros Hf. unfold fetch_fresh, bind, console_log, invoke, await.
  cbn. rewrite Hf. reflexivity.
Qed.

Lemma fetch_fresh_falsy env key ck fetchFn timeout_ms w d v :
  fetchFn (fetch_calls w) = Settles d (Fulfilled v) ->
  (d <= Z.to_N timeout_ms)%N ->
  truthy v = false ->
  fetch_fresh env key ck fetchFn timeout_ms w
    = Return v (advance d (count_fetch
                             (write_console (FetchingFresh key) w))).
Proof.
  intros Hf Hd Hv.
  unfold fetch_fresh, bind, console_log, invoke, await, withTimeout.
  cbn. rewrite Hf. apply N.leb_le in Hd. rewrite Hd, Hv. reflexivity.
Qed.

Lemma fetch_fresh_truthy env key ck fetchFn timeout_ms w d v :
  fetchFn (fetch_calls w) = Settles d (Fulfilled v) ->
  (d <= Z.to_N timeout_ms)%N ->
  truthy v = true ->
  let w1 := advance d (count_fetch (write_console (FetchingFresh key) w)) in
  fetch_fresh env key ck fetchFn timeout_ms w
    = Return v
        match env (io_ops w) with
        | IoDone _ =>
            count_io
              (set_store (<[ck := {| data := v; timestamp := clock w1;
                                     version := CACHE_VERSION |}]> (store w))
                         w1)
        | _ => count_io w1
        end.
Proof.
  intros Hf Hd Hv.
  unfold fetch_fresh, bind, console_log, invoke, await, withTimeout, save,
    date_now, ret.
  cbn. rewrite Hf. apply N.leb_le in Hd. rewrite Hd, Hv. cbn.
  destruct (env (io_ops w)); reflexivity.
Qed.

(** The fallback always returns, and never writes. *)
Lemma stale_fallback_spec env key ck err w :
  exists v w',
    stale_fallback env key ck err w = Return v w' /\
    store w' = store w /\
    fetch_calls w' = fetch_calls w /\
    (v = JNull \/
     exists c, store w !! ck = Some c /\ truthy (data c) = true /\ v = data c).
Proof.
  unfold stale_fallback, try_catch, bind, console_log, load, await,
    withTimeout, ret.
  cbn.
  destruct (env (io_ops w)) as [d|d e|]; cbn.
  - destruct (d <=? 1000)%N; cbn.
    + destruct (store w !! ck) as [c|] eqn:Hc; cbn.
      * destruct (truthy (data c)) eqn:Ht; cbn;
          (do 2 eexists; split; [reflexivity | ]; cbn; eauto 8).
      * do 2 eexists; split; [reflexivity | ]; cbn; eauto.
    + do 2 eexists; split; [reflexivity | ]; cbn; eauto.
  - destruct (d <=? 1000)%N; cbn;
      (do 2 eexists; split; [reflexivity | ]; cbn; eauto).
  - do 2 eexists; split; [reflexivity | ]; cbn; eauto.
Qed.


(** The fetch phase invokes [fetchFn] once, and returns or throws. *)
Lemma fetch_fresh_spec env key ck fetchFn timeout_ms w :
  (exists v w',
     fetch_fresh env key ck fetchFn timeout_ms w = Return v w' /\
     fetch_calls w' = S (fetch_calls w)) \/
  (exists e w',
     fetch_fresh env key ck fetchFn timeout_ms w = Throw e w' /\
     fetch_calls w' = S (fetch_calls w)).
Proof.
  unfold fetch_fresh, bind, console_log, invoke, await, withTimeout, save,
    date_now, ret.
  cbn.
  destruct (fetchFn (fetch_calls w)) as [d [v|e]|]; cbn.
  - destruct (d <=? Z.to_N timeout_ms)%N; cbn; [ | right; eauto].
    left. destruct (truthy v); cbn; [ | eauto].
    destruct (env (io_ops w)); cbn; eauto.
  - destruct (d <=? Z.to_N timeout_ms)%N; cbn; right; eauto.
  - right; eauto.
Qed.

(** The run of [getCached] on a valid entry read in time. *)
Lemma getCached_hit_run env key fetchFn config w e d :
  store w !! cacheKey (prefix_of config) key = Some e ->
  env (io_ops w) = IoDone d ->
  (d <= 2000)%N ->
  version e = CACHE_VERSION ->
  (clock w + Z.of_N d) - timestamp e < ttl_of config ->
  getCached env key fetchFn config w
    = Return (data e)
        (write_console (UsingCached key) (advance d (count_io w))).
Proof.
  intros Hstore Henv Hd Hver Hage.
  rewrite getCached_phases. cbv zeta. unfold try_catch at 1, bind at 1.
  rewrite (first_read_in_time _ _ _ d) by assumption.
  unfold bind, date_now. rewrite Hstore.
  change (clock (advance d (count_io w))) with (clock w + Z.of_N d).
  rewrite (entry_valid_true _ _ _ Hver Hage).
  reflexivity.
Qed.

(** Without a valid entry in the store, [getCached] goes through its
    fetch phase. *)
Lemma getCached_miss_run env key fetchFn config w :
  entry_valid (clock w) (ttl_of config)
    (store w !! cacheKey (prefix_of config) key) = false ->
  exists d1,
    (d1 <= 2000)%N /\
    getCached env key fetchFn config w =
    try_catch
      (fetch_fresh env key (cacheKey (prefix_of config) key) fetchFn
         (timeout_of config))
      (stale_fallback env key (cacheKey (prefix_of config) key))
      (advance d1 (count_io w)).
Proof.
  intros Hmiss.
  destruct (first_read_miss env _ _ w Hmiss) as (c & d1 & Hrun & Hd1 & Hinv).
  exists d1. split; [assumption | ].
  rewrite getCached_phases. cbv zeta.
  unfold try_catch, bind at 1. rewrite Hrun.
  unfold bind at 1, date_now.
  change (clock (advance d1 (count_io w))) with (clock w + Z.of_N d1).
  rewrite Hinv. reflexivity.
Qed.

Lemma getCached_miss_fetches env key fetchFn config w :
  entry_valid (clock w) (ttl_of config)
    (store w !! cacheKey (prefix_of config) key) = false ->
  exists v w',
    getCached env key fetchFn config w = Return v w' /\
    fetch_calls w' = S (fetch_calls w).
Proof.
  intros Hmiss.
  destruct (getCached_miss_run env key fetchFn config w Hmiss)
    as (d1 & _ & ->).
  unfold try_catch.
  destruct (fetch_fresh_spec env key (cacheKey (prefix_of config) key)
              fetchFn (timeout_of config) (advance d1 (count_io w)))
    as [(v & w' & -> & Hn) | (e & w' & -> & Hn)].
  - exists v, w'. split; [reflexivity | exact Hn].
  - destruct (stale_fallback_spec env key (cacheKey (prefix_of config) key)
                e w') as (v & w'' & -> & _ & Hn' & _).
    exists v, w''. split; [reflexivity | ]. rewrite Hn'. exact Hn.
Qed.

(** [getCached] returns: no run of it throws or waits for ever. *)
Lemma getCached_returns env key fetchFn config w :
  exists v w', getCached env key fetchFn config w = Return v w'.
Proof.
  rewrite getCached_phases. cbv zeta. unfold try_catch at 1, bind at 1.
  destruct (first_read_spec env (cacheKey (prefix_of config) key) w)
    as (c & d1 & -> & _ & _).
  unfold bind at 1, date_now.
  set (w1 := advance d1 (count_io w)).
  assert (Hmiss :
    exists v w',
      match fetch_fresh env key (cacheKey (prefix_of config) key) fetchFn
              (timeout_of config) w1 with
      | Return a w' => Return a w'
      | Throw e w' =>
          stale_fallback env key (cacheKey (prefix_of config) key) e w'
      | Hang w' => Hang w'
      end = Return v w').
  { destruct (fetch_fresh_spec env key (cacheKey (prefix_of config) key)
                fetchFn (timeout_of config) w1)
      as [(v & w' & -> & _) | (e & w' & -> & _)]; [eauto | ].
    destruct (stale_fallback_spec env key (cacheKey (prefix_of config) key)
                e w') as (v & w'' & -> & _).
    eauto. }
  destruct (entry_valid (clock w1) (ttl_of config) c); [ | exact Hmiss].
  destruct c as [c|]; [ | exact Hmiss].
  unfold bind, console_log, ret. eauto.
Qed.

(** ** The time [getCached] takes *)

Lemma first_read_takes env ck : takes_at_most 2000 (first_read env ck).
Proof.
  apply (takes_try_catch 2000 0); [ | intros; apply takes_ret | lia].
  apply (takes_bind 0 2000); [apply takes_load | | lia].
  intros p. apply (takes_await_withTimeout p 2000).
Qed.

Lemma fetch_fresh_takes env key ck fetchFn timeout_ms :
  takes_at_most (Z.max 0 timeout_ms)
                (fetch_fresh env key ck fetchFn timeout_ms).
Proof.
  apply (takes_bind 0 (Z.max 0 timeout_ms));
    [apply takes_console_log | | lia].
  intros _.
  apply (takes_bind 0 (Z.max 0 timeout_ms)); [apply takes_invoke | | lia].
  intros fp.
  apply (takes_bind (Z.max 0 timeout_ms) 0);
    [apply takes_await_withTimeout | | lia].
  intros freshData.
  apply (takes_bind 0 0); [ | intros; apply takes_ret | lia].
  destruct (truthy freshData); [ | apply takes_ret].
  apply (takes_bind 0 0); [apply takes_date_now | | lia].
  intros now'.
  apply (takes_bind 0 0); [apply takes_save | intros; apply takes_ret | lia].
Qed.

Lemma stale_fallback_takes env key ck err :
  takes_at_most 1000 (stale_fallback env key ck err).
Proof.
  apply (takes_bind 0 1000); [apply takes_console_log | | lia].
  intros _.
  apply (takes_bind 1000 0); [ | intros [v|]; apply takes_ret | lia].
  apply (takes_try_catch 1000 0); [ | intros; apply takes_ret | lia].
  apply (takes_bind 0 1000); [apply takes_load | | lia].
  intros p.
  apply (takes_bind 1000 0);
    [apply (takes_await_withTimeout p 1000) | | lia].
  intros [c|]; [ | apply takes_ret].
  destruct (truthy (data c)); [ | apply takes_ret].
  apply (takes_bind 0 0);
    [apply takes_console_log | intros; apply takes_ret | lia].
Qed.

(** The three suspension points of [getCached] add up. *)
Lemma getCached_takes env key fetchFn config :
  takes_at_most (2000 + Z.max 0 (timeout_of config) + 1000)
                (getCached env key fetchFn config).
Proof.
  rewrite getCached_phases. cbv zeta.
  apply (takes_try_catch (2000 + Z.max 0 (timeout_of config)) 1000);
    [ | intros; apply stale_fallback_takes | lia].
  apply (takes_bind 2000 (Z.max 0 (timeout_of config)));
    [apply first_read_takes | | lia].
  intros cached.
  apply (takes_bind 0 (Z.max 0 (timeout_of config)));
    [apply takes_date_now | | lia].
  intros now.
  destruct (entry_valid now (ttl_of config) cached), cached;
    try apply fetch_fresh_takes.
  apply (takes_weaken 0); [lia | ].
  apply (takes_bind 0 0);
    [apply takes_console_log | intros; apply takes_ret | lia].
Qed.

(** ** Removals and [Promise.all] *)

Lemma invalidateCache_call_run env key pre w :
  invalidateCache_call env key pre w
  = Return (removal_promise (env (io_ops w)))
      (count_io
         (match env (io_ops w) with
          | IoDone _ =>
              set_store (delete (cacheKey (default "cache" pre) key) (store w))
                        (write_console (Invalidating key) w)
          | _ => write_console (Invalidating key) w
          end)).
Proof.
  unfold invalidateCache_call, bind, console_log, remove. cbn.
  destruct (env (io_ops w)); reflexivity.
Qed.

(** The calls made by [keys.map]: one removal per key, issued in order;
    no time passes, and keys are only ever taken out of the store. *)
Lemma invalidate_each_spec env pre keys :
  forall w,
  exists w1,
    invalidate_each env keys pre w
      = Return (map (fun n => removal_promise (env n))
                    (seq (io_ops w) (length keys))) w1 /\
    io_ops w1 = (io_ops w + length keys)%nat /\
    clock w1 = clock w /\
    fetch_calls w1 = fetch_calls w /\
    (forall k, store w !! k = None -> store w1 !! k = None) /\
    (forall i key d,
       keys !! i = Some key ->
       env (io_ops w + i)%nat = IoDone d ->
       store w1 !! cacheKey (default "cache" pre) key = None).
Proof.
  induction keys as [|key rest IH]; intros w.
  - exists w. cbn. repeat split; auto with arith.
    intros i key d Hi. discriminate.
  - cbn [invalidate_each]. unfold bind at 1.
    rewrite invalidateCache_call_run.
    set (w' := count_io _).
    destruct (IH w') as (w1 & Hrun & Hops & Hclock & Hcalls & Hmono & Hdel).
    assert (Hops' : io_ops w' = S (io_ops w))
      by (unfold w'; destruct (env (io_ops w)); reflexivity).
    assert (Hmono' : forall k, store w !! k = None -> store w' !! k = None).
    { intros k Hk. unfold w'. destruct (env (io_ops w)); cbn; auto.
      destruct (decide (cacheKey (default "cache" pre) key = k)) as [->|Hne].
      - apply lookup_delete_eq.
      - rewrite lookup_delete_ne by assumption. exact Hk. }
    exists w1. unfold bind. rewrite Hrun. cbn [length seq map ret].
    rewrite Hops'. split; [reflexivity | ].
    split; [rewrite Hops, Hops'; lia | ].
    split; [rewrite Hclock; unfold w'; destruct (env (io_ops w)); reflexivity | ].
    split; [rewrite Hcalls; unfold w'; destruct (env (io_ops w)); reflexivity | ].
    split; [intros k Hk; auto | ].
    intros [|i] key' d Hi Hdone.
    + injection Hi as <-. apply Hmono.
      rewrite Nat.add_0_r in Hdone. unfold w'. rewrite Hdone. cbn.
      apply lookup_delete_eq.
    + apply (Hdel i key' d); [exact Hi | ].
      rewrite Hops'. rewrite <- Hdone. f_equal. lia.
Qed.

Lemma first_rejection_found {A : Type} (ps : list (promise A)) d e :
  In (Settles d (Rejected e)) ps ->
  exists d' e', first_rejection ps = Some (d', e').
Proof.
  induction ps as [|p rest IH]; intros Hin; [destruct Hin | ].
  cbn. destruct Hin as [-> | Hin].
  - destruct (first_rejection rest) as [[d' e']|]; [ | eauto].
    destruct (d' <? d)%N; eauto.
  - destruct (IH Hin) as (d' & e' & ->).
    destruct p as [d0 [a|e0]|]; eauto.
    destruct (d' <? d0)%N; eauto.
Qed.

Lemma all_removals_done (ps : list (promise unit)) :
  (forall p, In p ps -> exists d, p = Settles d (Fulfilled tt)) ->
  first_rejection ps = None /\
  exists d vs, all_fulfilled ps = Some (d, vs).
Proof.
  induction ps as [|p rest IH]; intros Hall; cbn; [eauto | ].
  destruct (Hall p (or_introl eq_refl)) as (d & ->).
  destruct IH as (-> & d' & vs & ->); [intros; apply Hall; now right | ].
  eauto.
Qed.

(** Awaiting [Promise.all] moves the clock only. *)
Lemma await_all_run (ps : list (promise unit)) w1 :
  let r := bind (await (promise_all ps)) (fun _ => ret tt) w1 in
  store (final_world r) = store w1 /\
  io_ops (final_world r) = io_ops w1 /\
  (forall d e, first_rejection ps = Some (d, e) ->
     r = Throw e (advance d w1)) /\
  (forall d vs, first_rejection ps = None ->
     all_fulfilled ps = Some (d, vs) ->
     r = Return tt (advance d w1)).
Proof.
  unfold bind, await, promise_all, ret.
  destruct (first_rejection ps) as [[d e]|].
  - cbn. repeat split; try discriminate. now intros d' e' [= <- <-].
  - destruct (all_fulfilled ps) as [[d vs]|]; cbn; repeat split;
      try discriminate.
    now intros d' vs' _ [= <- <-].
Qed.

(** No rejection is found only where no promise rejects. *)
Lemma first_rejection_none {A : Type} (ps : list (promise A)) i d e :
  first_rejection ps = None ->
  nth_error ps i <> Some (Settles d (Rejected e)).
Proof.
  intros Hnone Hi. apply nth_error_In in Hi.
  destruct (first_rejection_found ps d e Hi) as (d' & e' & Hsome).
  congruence.
Qed.

(** The rejection [Promise.all] settles with is that of a promise of the
    list, no other rejects before it, and those listed before it reject
    strictly later. *)
Lemma first_rejection_earliest {A : Type} (ps : list (promise A)) d e :
  first_rejection ps = Some (d, e) ->
  exists j,
    nth_error ps j = Some (Settles d (Rejected e)) /\
    (forall i d' e',
       nth_error ps i = Some (Settles d' (Rejected e')) -> (d <= d')%N) /\
    (forall k dk ek,
       (k < j)%nat ->
       nth_error ps k = Some (Settles dk (Rejected ek)) -> (d < dk)%N).
Proof.
  revert d e. induction ps as [|p rest IH]; intros d e; [discriminate | ].
  cbn [first_rejection].
  destruct (first_rejection rest) as [[d1 e1]|] eqn:Hrest.
  - destruct (IH d1 e1 eq_refl) as (j & Hj & Hmin & Htie).
    assert (Hlater :
      exists j',
        nth_error (p :: rest) j' = Some (Settles d1 (Rejected e1)) /\
        (forall i d' e',
           nth_error rest i = Some (Settles d' (Rejected e')) ->
           (d1 <= d')%N) /\
        (forall k dk ek,
           (0 < k < j')%nat ->
           nth_error (p :: rest) k = Some (Settles dk (Rejected ek)) ->
           (d1 < dk)%N) /\
        (0 < j')%nat).
    { exists (S j). split; [exact Hj | ]. split; [exact Hmin | ].
      split; [ | lia].
      intros [|k] dk ek Hk; [lia | ]. cbn. apply Htie. lia. }
    destruct Hlater as (j' & Hj' & Hmin' & Htie' & Hpos).
    destruct p as [d0 [a|e0]|].
    + intros [= <- <-]. exists j'. split; [exact Hj' | ]. split.
      * intros [|i] d' e'; cbn; [discriminate | apply Hmin'].
      * intros [|k] dk ek Hk; cbn; [discriminate | ].
        apply (Htie' (S k)). lia.
    + destruct (d1 <? d0)%N eqn:Hcmp; bool_facts; intros [= <- <-].
      * exists j'. split; [exact Hj' | ]. split.
        -- intros [|i] d' e'; cbn; [intros [= <- <-]; lia | apply Hmin'].
        -- intros [|k] dk ek Hk; cbn; [intros [= <- <-]; lia | ].
           apply (Htie' (S k)). lia.
      * exists 0%nat. split; [reflexivity | ]. split; [ | intros; lia].
        intros [|i] d' e'; cbn; [intros [= <- <-]; lia | ].
        intros Hi. specialize (Hmin' i d' e' Hi). lia.
    + intros [= <- <-]. exists j'. split; [exact Hj' | ]. split.
      * intros [|i] d' e'; cbn; [discriminate | apply Hmin'].
      * intros [|k] dk ek Hk; cbn; [discriminate | ].
        apply (Htie' (S k)). lia.
  - destruct p as [d0 [a|e0]|]; try discriminate.
    intros [= <- <-]. exists 0%nat. split; [reflexivity | ].
    split; [ | intros; lia].
    intros [|i] d' e'; cbn; [intros [= <- <-]; lia | ].
    intros Hi. now destruct (first_rejection_none rest i d' e' Hrest).
Qed.

(** The promises of [keys.map], by position. *)
Lemma removal_at env start len i p :
  nth_error (map (fun n => removal_promise (env n)) (seq start len)) i
    = Some p <->
  (i < len)%nat /\ p = removal_promise (env (start + i)%nat).
Proof.
  rewrite nth_error_map, nth_error_seq.
  destruct (i <? len)%nat eqn:Hi; cbn.
  - apply Nat.ltb_lt in Hi. split.
    + intros [= <-]. auto.
    + intros (_ & ->). reflexivity.
  - apply Nat.ltb_ge in Hi. split; [discriminate | ]. intros (Hlt & _). lia.
Qed.

Lemma removal_rejected (o : io) d e :
  removal_promise o = Settles d (Rejected e) <-> o = IoError d e.
Proof.
  destruct o as [d0|d0 e0|]; cbn; split; try discriminate; congruence.
Qed.

(** ** Cache hit *)

(** C1, as the code has it. When the store holds for [prefix:key] an
    entry whose version is [CACHE_VERSION] and whose age at the moment
    of the check is below the ttl, and the read of the store hands it
    over within its 2000 ms, [getCached] returns the data of that entry
    and [fetchFn] is not invoked. *)
Theorem getCached_valid_entry_skips_fetch env key fetchFn config w e d :
  store w !! cacheKey (prefix_of config) key = Some e ->
  env (io_ops w) = IoDone d ->
  (d <= 2000)%N ->
  version e = CACHE_VERSION ->
  (clock w + Z.of_N d) - timestamp e < ttl_of config ->
  exists w',
    getCached env key fetchFn config w = Return (data e) w' /\
    fetch_calls w' = fetch_calls w /\
    store w' = store w.
Proof.
  intros Hstore Henv Hd Hver Hage.
  rewrite (getCached_hit_run env key fetchFn config w e d) by assumption.
  eexists. split; [reflexivity | split; reflexivity].
Qed.

Lemma getCached_valid_entry_skips_fetch_witness :
  exists w',
    getCached quick_store "products" fetch_offline no_config warm_world
      = Return (data recent_entry) w' /\
    fetch_calls w' = 0%nat /\
    store w' = store warm_world.
Proof.
  apply (getCached_valid_entry_skips_fetch quick_store "products"
           fetch_offline no_config warm_world recent_entry 5).
  - reflexivity.
  - reflexivity.
  - lia.
  - reflexivity.
  - vm_compute. reflexivity.
Defined.

(** C1, as stated, fails when the store is slow: the store holds a valid
    entry for the key, valid still when the call ends, but the read
    takes three seconds; the timer wins the race at 2000 ms, the call
    goes on as on a miss, [fetchFn] is invoked and its result is
    returned instead of the data of the entry. *)
Lemma getCached_valid_entry_slow_read_counterexample :
  store warm_world !! cacheKey (prefix_of no_config) "products"
    = Some recent_entry /\
  version recent_entry = CACHE_VERSION /\
  clock warm_world - timestamp recent_entry < ttl_of no_config /\
  exists w',
    getCached sluggish_store "products" fetch_products no_config warm_world
      = Return (JArr [JObj [("id", JNum 1)]]) w' /\
    fetch_calls w' = 1%nat /\
    clock w' - timestamp recent_entry < ttl_of no_config /\
    data recent_entry <> JArr [JObj [("id", JNum 1)]].
Proof.
  split; [reflexivity | ]. split; [reflexivity | ].
  split; [vm_compute; reflexivity | ].
  eexists. split; [vm_compute; reflexivity | ].
  split; [reflexivity | ]. split; [vm_compute; reflexivity | discriminate].
Qed.

(** ** No exception reaches the caller *)

(** C2. [getCached] never throws: every run of it returns a value. When
    the store holds no entry for [prefix:key] and the bounded fetch
    fails ([fetchFn] rejects, or the timer wins the race), the value
    returned is null. *)
Theorem getCached_never_throws env key fetchFn config w :
  (exists v w', getCached env key fetchFn config w = Return v w') /\
  (forall d err,
     store w !! cacheKey (prefix_of config) key = None ->
     withTimeout (fetchFn (fetch_calls w)) (timeout_of config)
       = Settles d (Rejected err) ->
     exists w', getCached env key fetchFn config w = Return JNull w').
Proof.
  split; [apply getCached_returns | ].
  intros d err Hnone Hfetch.
  rewrite getCached_phases. cbv zeta. unfold try_catch at 1, bind at 1.
  destruct (first_read_spec env (cacheKey (prefix_of config) key) w)
    as (c & d1 & -> & _ & Hc).
  assert (c = None) as -> by (destruct Hc; congruence).
  unfold bind, date_now. cbn [entry_valid].
  rewrite (fetch_fresh_rejected _ _ _ _ _ _ d err) by exact Hfetch.
  destruct (stale_fallback_spec env key (cacheKey (prefix_of config) key) err
              (advance d (count_fetch (write_console (FetchingFresh key)
                                         (advance d1 (count_io w))))))
    as (v & w' & -> & _ & _ & [-> | (c & Hsome & _)]).
  - eauto.
  - cbn in Hsome. congruence.
Qed.

Lemma getCached_never_throws_witness :
  store empty_world !! cacheKey (prefix_of no_config) "products" = None /\
  exists w',
    getCached quick_store "products" fetch_offline no_config empty_world
      = Return JNull w'.
Proof.
  split; [reflexivity | ].
  apply (proj2 (getCached_never_throws quick_store "products" fetch_offline
                  no_config empty_world)
               10%N (Failure "Network request failed")).
  - reflexivity.
  - reflexivity.
Defined.

(** ** Bounded latency *)

(** C9. Whatever the store and [fetchFn] do, [getCached] returns, and it
    does so within the timeout of the configuration plus the 2000 ms of
    the first read and the 1000 ms of the fallback read. *)
Theorem getCached_bounded_latency env key fetchFn config w :
  0 <= timeout_of config ->
  exists v w',
    getCached env key fetchFn config w = Return v w' /\
    clock w <= clock w' <= clock w + (timeout_of config + 2000 + 1000).
Proof.
  intros Ht.
  destruct (getCached_returns env key fetchFn config w) as (v & w' & Hrun).
  exists v, w'. split; [exact Hrun | ].
  destruct (getCached_takes env key fetchFn config w) as [_ Hclock].
  rewrite Hrun in Hclock. simpl in Hclock. lia.
Qed.

Lemma getCached_bounded_latency_witness :
  exists v w',
    getCached stalled_store "products" fetch_hanging no_config empty_world
      = Return v w' /\
    clock empty_world <= clock w'
      <= clock empty_world + (timeout_of no_config + 2000 + 1000).
Proof.
  apply (getCached_bounded_latency stalled_store "products" fetch_hanging
           no_config empty_world).
  unfold timeout_of. simpl. lia.
Defined.

(** The bound is reached when nothing answers: 2000 ms for the read,
    10000 ms for the fetch and 1000 ms for the fallback read. *)
Example getCached_slowest_run :
  getCached stalled_store "products" fetch_hanging no_config empty_world
  = Return JNull
      {| store := ∅; clock := 1013000;
         console := [ErrorFetching "products" (TimedOut 10000);
                     FetchingFresh "products"];
         io_ops := 2; fetch_calls := 1 |}.
Proof. vm_compute. reflexivity. Qed.

(** ** Stale fallback *)




(** ** Fresh data after a miss *)

(** C4, as the code has it. After a miss (the store holds no valid entry
    for the key) with a fetch that succeeds within the timeout,
    [getCached] returns the fetched value. When that value is truthy and
    the write of the entry completes, the store then holds
    [{data, timestamp: now, version: CACHE_VERSION}], and an immediate
    second call whose read answers within 2000 ms and within the ttl
    returns the same value without invoking its [fetchFn]. *)
Theorem getCached_fresh_then_cached env key fetchFn config w v d :
  entry_valid (clock w) (ttl_of config)
    (store w !! cacheKey (prefix_of config) key) = false ->
  fetchFn (fetch_calls w) = Settles d (Fulfilled v) ->
  (d <= Z.to_N (timeout_of config))%N ->
  exists w1,
    getCached env key fetchFn config w = Return v w1 /\
    fetch_calls w1 = S (fetch_calls w) /\
    (truthy v = true ->
     forall ds d2,
       env (S (io_ops w)) = IoDone ds ->
       env (S (S (io_ops w))) = IoDone d2 ->
       (d2 <= 2000)%N ->
       Z.of_N d2 < ttl_of config ->
       store w1 !! cacheKey (prefix_of config) key
         = Some {| data := v; timestamp := clock w1;
                   version := CACHE_VERSION |} /\
       forall fetchFn',
         exists w2,
           getCached env key fetchFn' config w1 = Return v w2 /\
           fetch_calls w2 = fetch_calls w1).
Proof.
  intros Hmiss Hfetch Hd.
  destruct (getCached_miss_run env key fetchFn config w Hmiss)
    as (d1 & _ & ->).
  unfold try_catch.
  destruct (truthy v) eqn:Hv.
  - rewrite (fetch_fresh_truthy _ _ _ _ _ _ d v) by assumption.
    cbv zeta. eexists. split; [reflexivity | ]. split.
    + destruct (env (io_ops (advance d1 (count_io w)))); reflexivity.
    + intros _ ds d2 Hsave Hread Hd2 Httl.
      change (io_ops (advance d1 (count_io w))) with (S (io_ops w)).
      rewrite Hsave. split.
      * cbn. apply lookup_insert_eq.
      * intros fetchFn'. eexists. split.
        -- apply (getCached_hit_run env key fetchFn' config _
                    {| data := v;
                       timestamp := clock w + Z.of_N d1 + Z.of_N d;
                       version := CACHE_VERSION |} d2).
           ++ cbn. apply lookup_insert_eq.
           ++ exact Hread.
           ++ exact Hd2.
           ++ reflexivity.
           ++ cbn. lia.
        -- reflexivity.
  - rewrite (fetch_fresh_falsy _ _ _ _ _ _ d v) by assumption.
    eexists. split; [reflexivity | ]. split; [reflexivity | ].
    intros Habs. discriminate.
Qed.

Lemma getCached_fresh_then_cached_witness :
  exists w1,
    getCached quick_store "products" fetch_products no_config empty_world
      = Return (JArr [JObj [("id", JNum 1)]]) w1 /\
    fetch_calls w1 = 1%nat /\
    store w1 !! "cache:products"
      = Some {| data := JArr [JObj [("id", JNum 1)]];
                timestamp := clock w1; version := CACHE_VERSION |} /\
    exists w2,
      getCached quick_store "products" fetch_offline no_config w1
        = Return (JArr [JObj [("id", JNum 1)]]) w2 /\
      fetch_calls w2 = 1%nat.
Proof.
  destruct (getCached_fresh_then_cached quick_store "products"
              fetch_products no_config empty_world
              (JArr [JObj [("id", JNum 1)]]) 30)
    as (w1 & Hrun & Hcalls & Hnext).
  - reflexivity.
  - reflexivity.
  - vm_compute. discriminate.
  - destruct (Hnext eq_refl 5%N 5%N) as (Hstore & Hagain).
    + reflexivity.
    + reflexivity.
    + lia.
    + vm_compute. reflexivity.
    + destruct (Hagain fetch_offline) as (w2 & Hrun2 & Hcalls2).
      exists w1. split; [exact Hrun | ]. split; [exact Hcalls | ].
      split; [exact Hstore | ].
      exists w2. split; [exact Hrun2 | ].
      rewrite Hcalls2. exact Hcalls.
Defined.

(** C4, as stated, fails on a fetch that succeeds with a falsy value: on
    an empty store the first call returns the number 0 that [fetchFn]
    produced, no entry is written, and the immediate second call invokes
    [fetchFn] a second time. *)
Lemma getCached_falsy_refetch_counterexample :
  fetch_zero 0%nat = Settles 30 (Fulfilled (JNum 0)) /\
  exists w1 w2,
    getCached quick_store "count" fetch_zero no_config empty_world
      = Return (JNum 0) w1 /\
    store w1 !! cacheKey (prefix_of no_config) "count" = None /\
    fetch_calls w1 = 1%nat /\
    getCached quick_store "count" fetch_zero no_config w1
      = Return (JNum 0) w2 /\
    fetch_calls w2 = 2%nat.
Proof.
  split; [reflexivity | ].
  do 2 eexists.
  split; [vm_compute; reflexivity | ].
  split; [reflexivity | ].
  split; [reflexivity | ].
  split; [vm_compute; reflexivity | reflexivity].
Qed.

(** ** A falsy result is returned and not written *)

(** C10, as the code has it. When [fetchFn] resolves within the timeout
    to a falsy value, a run of [getCached] issues no write: the read is
    its only store operation and the store is left as it was. Either the
    run is a hit and [fetchFn] is not invoked, or it misses and returns
    that falsy value. When the miss comes from the store holding no
    valid entry for the key, a subsequent call with the same key and
    configuration invokes its [fetchFn] again. *)
Theorem getCached_falsy_not_written env key fetchFn config w v d :
  fetchFn (fetch_calls w) = Settles d (Fulfilled v) ->
  (d <= Z.to_N (timeout_of config))%N ->
  truthy v = false ->
  exists r w1,
    getCached env key fetchFn config w = Return r w1 /\
    store w1 = store w /\
    io_ops w1 = S (io_ops w) /\
    (fetch_calls w1 = fetch_calls w \/
     (fetch_calls w1 = S (fetch_calls w) /\ r = v)) /\
    (entry_valid (clock w) (ttl_of config)
       (store w !! cacheKey (prefix_of config) key) = false ->
     fetch_calls w1 = S (fetch_calls w) /\
     r = v /\
     forall fetchFn',
       exists v2 w2,
         getCached env key fetchFn' config w1 = Return v2 w2 /\
         fetch_calls w2 = S (fetch_calls w1)).
Proof.
  intros Hfetch Hd Hv.
  rewrite getCached_phases. cbv zeta. unfold try_catch at 1, bind at 1.
  destruct (first_read_spec env (cacheKey (prefix_of config) key) w)
    as (c & d1 & -> & _ & Hc).
  unfold bind at 1, date_now.
  set (ck := cacheKey (prefix_of config) key) in *.
  set (w1 := advance d1 (count_io w)).
  assert (Hmiss :
    exists r w2,
      match fetch_fresh env key ck fetchFn (timeout_of config) w1 with
      | Return a w' => Return a w'
      | Throw e w' => stale_fallback env key ck e w'
      | Hang w' => Hang w'
      end = Return r w2 /\
      store w2 = store w /\
      io_ops w2 = S (io_ops w) /\
      (fetch_calls w2 = fetch_calls w \/
       (fetch_calls w2 = S (fetch_calls w) /\ r = v)) /\
      (entry_valid (clock w) (ttl_of config) (store w !! ck) = false ->
       fetch_calls w2 = S (fetch_calls w) /\
       r = v /\
       forall fetchFn',
         exists v2 w3,
           getCached env key fetchFn' config w2 = Return v2 w3 /\
           fetch_calls w3 = S (fetch_calls w2))).
  { rewrite (fetch_fresh_falsy _ _ _ _ _ _ d v) by assumption.
    do 2 eexists. split; [reflexivity | ].
    split; [reflexivity | ]. split; [reflexivity | ].
    split; [right; split; reflexivity | ].
    intros Hinvalid. split; [reflexivity | ]. split; [reflexivity | ].
    intros fetchFn'. apply getCached_miss_fetches.
    cbn. apply (entry_valid_later (clock w)); [lia | exact Hinvalid]. }
  destruct (entry_valid (clock w1) (ttl_of config) c) eqn:Hvalid;
    [ | exact Hmiss].
  destruct c as [c|]; [ | exact Hmiss].
  destruct Hc as [Hc | Hc]; [discriminate | ].
  unfold bind, console_log, ret.
  do 2 eexists. split; [reflexivity | ].
  split; [reflexivity | ]. split; [reflexivity | ].
  split; [left; reflexivity | ].
  intros Hinvalid. rewrite <- Hc in Hinvalid.
  rewrite (entry_valid_later (clock w) (clock w1) _ _) in Hvalid;
    [discriminate | cbn; lia | exact Hinvalid].
Qed.

Lemma getCached_falsy_not_written_witness :
  exists r w1,
    getCached quick_store "count" fetch_zero no_config zero_world
      = Return r w1 /\
    store w1 = store zero_world /\
    io_ops w1 = 1%nat /\
    fetch_calls w1 = 1%nat /\
    r = JNum 0 /\
    forall fetchFn',
      exists v2 w2,
        getCached quick_store "count" fetchFn' no_config w1 = Return v2 w2 /\
        fetch_calls w2 = S (fetch_calls w1).
Proof.
  destruct (getCached_falsy_not_written quick_store "count" fetch_zero
              no_config zero_world (JNum 0) 30)
    as (r & w1 & Hrun & Hstore & Hio & _ & Hmiss).
  - reflexivity.
  - vm_compute. discriminate.
  - reflexivity.
  - destruct Hmiss as (Hcalls & Hr & Hnext); [vm_compute; reflexivity | ].
    exists r, w1. split; [exact Hrun | ]. split; [exact Hstore | ].
    split; [exact Hio | ]. split; [exact Hcalls | ].
    split; [exact Hr | exact Hnext].
Defined.

(** C10, as stated, fails when the miss comes from the read and not from
    the store: the store holds a valid entry, the first read never
    answers, so the call misses; [fetchFn] resolves to the number 0,
    which is returned and not written. The subsequent call reads the
    valid entry in 5 ms and returns its data: [fetchFn] is not invoked
    again. *)
Lemma getCached_falsy_then_hit_counterexample :
  fetch_zero 0%nat = Settles 30 (Fulfilled (JNum 0)) /\
  exists w1 w2,
    getCached first_stalls "products" fetch_zero no_config warm_world
      = Return (JNum 0) w1 /\
    fetch_calls w1 = 1%nat /\
    store w1 = store warm_world /\
    getCached first_stalls "products" fetch_zero no_config w1
      = Return (data recent_entry) w2 /\
    fetch_calls w2 = 1%nat.
Proof.
  split; [reflexivity | ].
  do 2 eexists.
  split; [vm_compute; reflexivity | ].
  split; [reflexivity | ].
  split; [reflexivity | ].
  split; [vm_compute; reflexivity | reflexivity].
Qed.

(** ** Invalidation forces a refetch *)

(** C5. Once [invalidateCache(key)] has returned, an immediate
    [getCached] for the same key (and prefix) invokes [fetchFn]. *)
Theorem invalidate_forces_refetch env key pre fetchFn config w w1 :
  prefix config = pre ->
  invalidateCache env key pre w = Return tt w1 ->
  exists v w2,
    getCached env key fetchFn config w1 = Return v w2 /\
    fetch_calls w2 = S (fetch_calls w1).
Proof.
  intros Hpre Hinv.
  apply getCached_miss_fetches.
  unfold prefix_of. rewrite Hpre.
  revert Hinv.
  unfold invalidateCache, invalidateCache_call, bind, console_log, remove,
    await.
  cbn. destruct (env (io_ops w)) as [d|d e|]; cbn; try discriminate.
  intros [= <-]. cbn. rewrite lookup_delete_eq. reflexivity.
Qed.

Lemma invalidate_forces_refetch_witness :
  exists v w2,
    getCached quick_store "products" fetch_products no_config
      (final_world (invalidateCache quick_store "products" None warm_world))
      = Return v w2 /\
    fetch_calls w2 = 1%nat.
Proof.
  apply (invalidate_forces_refetch quick_store "products" None
           fetch_products no_config warm_world).
  - reflexivity.
  - reflexivity.
Defined.

(** ** Invalidation *)

(** C7, as the code has it. [invalidateCache] settles as the removal it
    issues does. When the removal completes, the call returns and the
    entry for [prefix:key] is gone, whether or not there was one; a
    second invalidation changes nothing more. When the removal fails,
    the call throws that very error and the store is as before. *)
Theorem invalidateCache_outcome env key pre w :
  let ck := cacheKey (default "cache" pre) key in
  (forall d,
     env (io_ops w) = IoDone d ->
     exists w1,
       invalidateCache env key pre w = Return tt w1 /\
       store w1 = delete ck (store w) /\
       (store w !! ck = None -> store w1 = store w) /\
       (forall d',
          env (io_ops w1) = IoDone d' ->
          exists w2,
            invalidateCache env key pre w1 = Return tt w2 /\
            store w2 = store w1)) /\
  (forall d e,
     env (io_ops w) = IoError d e ->
     exists w1,
       invalidateCache env key pre w = Throw e w1 /\
       store w1 = store w).
Proof.
  cbv zeta. split.
  - intros d Henv.
    unfold invalidateCache, bind at 1. rewrite invalidateCache_call_run.
    rewrite Henv. cbn. eexists. split; [reflexivity | ]. cbn.
    split; [reflexivity | ]. split.
    + intros Hnone. now apply delete_id.
    + intros d' Henv'.
      unfold invalidateCache, bind at 1. rewrite invalidateCache_call_run.
      cbn [io_ops advance count_io set_store write_console].
      rewrite Henv'. cbn. eexists. split; [reflexivity | ]. cbn.
      apply delete_id. apply lookup_delete_eq.
  - intros d e Henv.
    unfold invalidateCache, bind at 1. rewrite invalidateCache_call_run.
    rewrite Henv. cbn. eexists. split; reflexivity.
Qed.

Lemma invalidateCache_outcome_witness :
  exists w1,
    invalidateCache quick_store "products" None warm_world = Return tt w1 /\
    store w1 = delete "cache:products" (store warm_world).
Proof.
  destruct (proj1 (invalidateCache_outcome quick_store "products" None
                     warm_world) 5%N)
    as (w1 & Hrun & Hstore & _).
  - reflexivity.
  - exists w1. split; [exact Hrun | exact Hstore].
Defined.

(** C7, as stated, fails when the removal fails: the call does not
    recover, it throws the error of the store. *)
Lemma invalidateCache_rejects_counterexample :
  first_fails (io_ops warm_world) = IoError 5 (Failure "disk I/O error") /\
  invalidateCache first_fails "products" None warm_world
  = Throw (Failure "disk I/O error")
      {| store := store warm_world; clock := 1000005;
         console := [Invalidating "products"];
         io_ops := 1; fetch_calls := 0 |}.
Proof. split; vm_compute; reflexivity. Qed.

(** C6, as the code has it. [invalidateCaches] issues one removal per
    key, whatever becomes of the others: a key whose own removal
    completes is out of the store also when the removal of another key
    fails. A failure is not swallowed: when a removal fails the call
    throws, at the moment of the earliest failure and with its error
    (that of the first key listed, among failures of the same moment);
    it returns when all removals complete. *)
Theorem invalidateCaches_isolation env keys pre w :
  let r := invalidateCaches env keys pre w in
  io_ops (final_world r) = (io_ops w + length keys)%nat /\
  (forall i key d,
     keys !! i = Some key ->
     env (io_ops w + i)%nat = IoDone d ->
     store (final_world r) !! cacheKey (default "cache" pre) key = None) /\
  (forall i d e,
     (i < length keys)%nat ->
     env (io_ops w + i)%nat = IoError d e ->
     exists j d' e' w',
       (j < length keys)%nat /\
       env (io_ops w + j)%nat = IoError d' e' /\
       (d' <= d)%N /\
       (forall k dk ek,
          (k < j)%nat ->
          env (io_ops w + k)%nat = IoError dk ek ->
          (d' < dk)%N) /\
       r = Throw e' w' /\
       clock w' = clock w + Z.of_N d') /\
  ((forall i, (i < length keys)%nat ->
              exists d, env (io_ops w + i)%nat = IoDone d) ->
   exists w', r = Return tt w').
Proof.
  cbv zeta.
  set (w0 := write_console (InvalidatingMany (length keys)) w).
  destruct (invalidate_each_spec env pre keys w0)
    as (w1 & Hrun & Hops & Hclock & _ & _ & Hdel).
  change (io_ops w0) with (io_ops w) in *.
  change (clock w0) with (clock w) in *.
  set (ps := map (fun n => removal_promise (env n))
                 (seq (io_ops w) (length keys))) in *.
  assert (Heq : invalidateCaches env keys pre w
                = bind (await (promise_all ps)) (fun _ => ret tt) w1).
  { unfold invalidateCaches, bind at 1, console_log. fold w0.
    unfold bind at 1. rewrite Hrun. reflexivity. }
  rewrite Heq. clear Heq.
  destruct (await_all_run ps w1) as (Hstore & Hio & Hrej & Hok).
  cbv zeta in Hstore, Hio, Hrej, Hok.
  split; [rewrite Hio; exact Hops | ].
  split; [intros i key d Hi Hdone; rewrite Hstore; eauto | ].
  split.
  - intros i d e Hi Herr.
    assert (Hat : nth_error ps i = Some (Settles d (Rejected e))).
    { apply removal_at. split; [exact Hi | ].
      symmetry. now apply removal_rejected. }
    destruct (first_rejection_found ps d e (nth_error_In _ _ Hat))
      as (d' & e' & Hfirst).
    destruct (first_rejection_earliest ps d' e' Hfirst)
      as (j & Hj & Hmin & Htie).
    apply removal_at in Hj. destruct Hj as (Hlt & Hj).
    symmetry in Hj. apply removal_rejected in Hj.
    exists j, d', e', (advance d' w1).
    split; [exact Hlt | ]. split; [exact Hj | ].
    split; [exact (Hmin i d e Hat) | ].
    split; [ | split; [exact (Hrej d' e' Hfirst) | cbn; lia]].
    intros k dk ek Hk Hkerr. apply (Htie k dk ek Hk).
    apply removal_at. split; [lia | ].
    symmetry. now apply removal_rejected.
  - intros Hall.
    destruct (all_removals_done ps) as (Hnone & d & vs & Hdone).
    + intros p Hp. apply in_map_iff in Hp. destruct Hp as (n & <- & Hn).
      apply in_seq in Hn.
      destruct (Hall (n - io_ops w)%nat) as (d & Hd); [lia | ].
      replace (io_ops w + (n - io_ops w))%nat with n in Hd by lia.
      rewrite Hd. eauto.
    + rewrite (Hok d vs Hnone Hdone). eauto.
Qed.

Lemma invalidateCaches_isolation_witness :
  store (final_world
           (invalidateCaches first_fails ["k1"; "k2"] None two_keys_world))
    !! "cache:k2" = None /\
  exists j d' e' w',
    (j < 2)%nat /\
    first_fails (0 + j)%nat = IoError d' e' /\
    (d' <= 5)%N /\
    (forall k dk ek,
       (k < j)%nat -> first_fails (0 + k)%nat = IoError dk ek -> (d' < dk)%N) /\
    invalidateCaches first_fails ["k1"; "k2"] None two_keys_world
      = Throw e' w' /\
    clock w' = clock two_keys_world + Z.of_N d'.
Proof.
  destruct (invalidateCaches_isolation first_fails ["k1"; "k2"] None
              two_keys_world) as (_ & Hdel & Hrej & _).
  split.
  - apply (Hdel 1%nat "k2" 5%N); reflexivity.
  - apply (Hrej 0%nat 5%N (Failure "disk I/O error"));
      [simpl; lia | reflexivity].
Defined.

(** C6, as stated, fails when one removal fails: the other key is
    deleted, but the failure is not swallowed and [invalidateCaches]
    throws instead of returning. *)
Lemma invalidateCaches_rejects_counterexample :
  invalidateCaches first_fails ["k1"; "k2"] None two_keys_world
  = Throw (Failure "disk I/O error")
      {| store := {[ "cache:k1" := recent_entry ]}; clock := 1000005;
         console := [Invalidating "k2"; Invalidating "k1";
                     InvalidatingMany 2];
         io_ops := 2; fetch_calls := 0 |}.
Proof. vm_compute. reflexivity. Qed.

(** Two failures: the call throws the error of the earlier one, that of
    the second key, 5 ms after it was started. *)
Example invalidateCaches_earliest_failure :
  invalidateCaches late_then_early_failures ["k1"; "k2"] None two_keys_world
  = Throw (Failure "second key")
      {| store := store two_keys_world; clock := 1000005;
         console := [Invalidating "k2"; Invalidating "k1";
                     InvalidatingMany 2];
         io_ops := 2; fetch_calls := 0 |}.
Proof. vm_compute. reflexivity. Qed.

(** ** Warming the cache *)

(** C8, as the code has it. [preCache] invokes [fetchFn] in every run and
    awaits it without a timer, for as long as it takes. A truthy result
    is written as [{data, timestamp: now, version: CACHE_VERSION}]; a
    falsy one is not written. A failed fetch and a failed write are
    swallowed: no run of [preCache] throws. *)
Theorem preCache_outcome env key fetchFn config w :
  let ck := cacheKey (prefix_of config) key in
  let r := preCache env key fetchFn config w in
  fetch_calls (final_world r) = S (fetch_calls w) /\
  (forall e w', r <> Throw e w') /\
  (fetchFn (fetch_calls w) = Never -> r = Hang (count_fetch w)) /\
  (forall d v,
     fetchFn (fetch_calls w) = Settles d (Fulfilled v) ->
     (truthy v = true ->
      (forall ds,
         env (io_ops w) = IoDone ds ->
         exists w',
           r = Return tt w' /\
           store w' = <[ck := {| data := v; timestamp := clock w + Z.of_N d;
                                 version := CACHE_VERSION |}]> (store w) /\
           clock w' = clock w + Z.of_N d + Z.of_N ds) /\
      (forall ds e,
         env (io_ops w) = IoError ds e ->
         exists w', r = Return tt w' /\ store w' = store w)) /\
     (truthy v = false ->
      exists w',
        r = Return tt w' /\ store w' = store w /\ io_ops w' = io_ops w /\
        clock w' = clock w + Z.of_N d)) /\
  (forall d e,
     fetchFn (fetch_calls w) = Settles d (Rejected e) ->
     exists w', r = Return tt w' /\ store w' = store w).
Proof.
  cbv zeta.
  unfold preCache, try_catch, bind, invoke, await, date_now, save,
    console_log, ret.
  cbn.
  destruct (fetchFn (fetch_calls w)) as [d [v|e]|]; cbn.
  - destruct (truthy v) eqn:Hv; cbn.
    + destruct (env (io_ops w)) as [ds|ds e|] eqn:Henv; cbn;
        (split; [reflexivity | ]);
        (split; [discriminate | ]);
        (split; [discriminate | ]);
        (split; [ | discriminate]);
        intros d' v' [= <- <-]; (split; [ | congruence]); intros _;
        (split; [intros ds' [= <-] || discriminate
                | intros ds' e' [= <- <-] || discriminate]);
        eexists; split; reflexivity || (split; reflexivity).
    + split; [reflexivity | ].
      split; [discriminate | ].
      split; [discriminate | ].
      split; [ | discriminate].
      intros d' v' [= <- <-]. split; [congruence | ]. intros _.
      eexists. split; [reflexivity | ]. cbn. auto.
  - split; [reflexivity | ].
    split; [discriminate | ].
    split; [discriminate | ].
    split; [discriminate | ].
    intros d' e' [= <- <-]. eexists. split; reflexivity.
  - split; [reflexivity | ].
    split; [discriminate | ].
    split; [reflexivity | ].
    split; discriminate.
Qed.

Lemma preCache_outcome_witness :
  exists w',
    preCache quick_store "products" fetch_slow no_config empty_world
      = Return tt w' /\
    store w' = <["cache:products" :=
                   {| data := JStr "late"; timestamp := 1000000 + 3600000;
                      version := CACHE_VERSION |}]> ∅ /\
    clock w' = 1000000 + 3600000 + 5.
Proof.
  destruct (preCache_outcome quick_store "products" fetch_slow no_config
              empty_world) as (_ & _ & _ & Hdone & _).
  destruct (Hdone 3600000%N (JStr "late") eq_refl) as (Htruthy & _).
  destruct (Htruthy eq_refl) as (Hsaved & _).
  apply (Hsaved 5%N). reflexivity.
Defined.

(** C8, as stated, fails on a result that is present and falsy: the
    number 0 is neither null nor undefined, [fetchFn] resolves to it, and
    [preCache] issues no write. *)
Lemma preCache_zero_counterexample :
  fetch_zero (fetch_calls empty_world) = Settles 30 (Fulfilled (JNum 0)) /\
  JNum 0 <> JNull /\
  JNum 0 <> JUndefined /\
  preCache quick_store "count" fetch_zero no_config empty_world
  = Return tt
      {| store := ∅; clock := 1000030; console := [];
         io_ops := 0; fetch_calls := 1 |}.
Proof.
  split; [reflexivity | ].
  split; [discriminate | ].
  split; [discriminate | ].
  vm_compute. reflexivity.
Qed.

(** * Further properties of the cache manager *)

(** ** What a run of [getCached] touches *)

Lemma fetch_fresh_footprint env key ck fetchFn timeout_ms w :
  (exists e w',
     fetch_fresh env key ck fetchFn timeout_ms w = Throw e w' /\
     store w' = store w /\
     fetch_calls w' = S (fetch_calls w) /\
     io_ops w' = io_ops w /\
     clock w <= clock w') \/
  (exists v w',
     fetch_fresh env key ck fetchFn timeout_ms w = Return v w' /\
     fetch_calls w' = S (fetch_calls w) /\
     clock w <= clock w' /\
     ((store w' = store w /\
       (io_ops w <= io_ops w' <= S (io_ops w))%nat) \/
      (truthy v = true /\
       store w' = <[ck := {| data := v; timestamp := clock w';
                             version := CACHE_VERSION |}]> (store w) /\
       io_ops w' = S (io_ops w)))).
Proof.
  unfold fetch_fresh, bind, console_log, invoke, await, withTimeout, save,
    date_now, ret.
  cbn.
  destruct (fetchFn (fetch_calls w)) as [d [v|e]|]; cbn.
  - destruct (d <=? Z.to_N timeout_ms)%N; cbn.
    + right. destruct (truthy v) eqn:Hv; cbn.
      * destruct (env (io_ops w)); cbn;
          (do 2 eexists; split; [reflexivity | ]; cbn;
           split; [reflexivity | ]; split; [lia | ]).
        -- right. auto.
        -- left. split; [reflexivity | lia].
        -- left. split; [reflexivity | lia].
      * do 2 eexists. split; [reflexivity | ]. cbn.
        split; [reflexivity | ]. split; [lia | ].
        left. split; [reflexivity | lia].
    + left. do 2 eexists. split; [reflexivity | ]. cbn.
      repeat split; lia.
  - left. destruct (d <=? Z.to_N timeout_ms)%N; cbn;
      (do 2 eexists; split; [reflexivity | ]; cbn; repeat split; lia).
  - left. do 2 eexists. split; [reflexivity | ]. cbn. repeat split; lia.
Qed.

Lemma stale_fallback_footprint env key ck err w :
  exists v w',
    stale_fallback env key ck err w = Return v w' /\
    store w' = store w /\
    fetch_calls w' = fetch_calls w /\
    io_ops w' = S (io_ops w) /\
    clock w <= clock w' /\
    (v = JNull \/
     exists c, store w !! ck = Some c /\ truthy (data c) = true /\ v = data c).
Proof.
  unfold stale_fallback, try_catch, bind, console_log, load, await,
    withTimeout, ret.
  cbn.
  destruct (env (io_ops w)) as [d|d e|]; cbn.
  - destruct (d <=? 1000)%N; cbn.
    + destruct (store w !! ck) as [c|] eqn:Hc; cbn.
      * destruct (truthy (data c)) eqn:Ht; cbn;
          (do 2 eexists; split; [reflexivity | ]; cbn;
           repeat (split; [reflexivity || lia | ]); eauto 8).
      * do 2 eexists; split; [reflexivity | ]; cbn;
          repeat (split; [reflexivity || lia | ]); eauto.
    + do 2 eexists; split; [reflexivity | ]; cbn;
        repeat (split; [reflexivity || lia | ]); eauto.
  - destruct (d <=? 1000)%N; cbn;
      (do 2 eexists; split; [reflexivity | ]; cbn;
       repeat (split; [reflexivity || lia | ]); eauto).
  - do 2 eexists; split; [reflexivity | ]; cbn;
      repeat (split; [reflexivity || lia | ]); eauto.
Qed.

(** A run of [getCached] is a hit, a fresh fetch or a fallback. *)
Lemma getCached_footprint env key fetchFn config w :
  let ck := cacheKey (prefix_of config) key in
  exists v w',
    getCached env key fetchFn config w = Return v w' /\
    clock w <= clock w' /\
    ((exists c,
        store w !! ck = Some c /\ v = data c /\
        entry_valid (clock w') (ttl_of config) (Some c) = true /\
        store w' = store w /\
        fetch_calls w' = fetch_calls w /\
        io_ops w' = S (io_ops w)) \/
     (fetch_calls w' = S (fetch_calls w) /\
      ((store w' = store w /\
        (S (io_ops w) <= io_ops w' <= S (S (io_ops w)))%nat) \/
       (truthy v = true /\
        store w' = <[ck := {| data := v; timestamp := clock w';
                              version := CACHE_VERSION |}]> (store w) /\
        io_ops w' = S (S (io_ops w))))) \/
     (fetch_calls w' = S (fetch_calls w) /\
      store w' = store w /\
      io_ops w' = S (S (io_ops w)) /\
      (v = JNull \/
       exists c,
         store w !! ck = Some c /\ truthy (data c) = true /\ v = data c))).
Proof.
  cbv zeta.
  rewrite getCached_phases. cbv zeta. unfold try_catch at 1, bind at 1.
  destruct (first_read_spec env (cacheKey (prefix_of config) key) w)
    as (c & d1 & -> & _ & Hc).
  unfold bind at 1, date_now.
  set (ck := cacheKey (prefix_of config) key) in *.
  set (w1 := advance d1 (count_io w)).
  assert (Hmiss :
    exists v w',
      match fetch_fresh env key ck fetchFn (timeout_of config) w1 with
      | Return a w' => Return a w'
      | Throw e w' => stale_fallback env key ck e w'
      | Hang w' => Hang w'
      end = Return v w' /\
      clock w <= clock w' /\
      ((exists c,
          store w !! ck = Some c /\ v = data c /\
          entry_valid (clock w') (ttl_of config) (Some c) = true /\
          store w' = store w /\
          fetch_calls w' = fetch_calls w /\
          io_ops w' = S (io_ops w)) \/
       (fetch_calls w' = S (fetch_calls w) /\
        ((store w' = store w /\
          (S (io_ops w) <= io_ops w' <= S (S (io_ops w)))%nat) \/
         (truthy v = true /\
          store w' = <[ck := {| data := v; timestamp := clock w';
                                version := CACHE_VERSION |}]> (store w) /\
          io_ops w' = S (S (io_ops w))))) \/
       (fetch_calls w' = S (fetch_calls w) /\
        store w' = store w /\
        io_ops w' = S (S (io_ops w)) /\
        (v = JNull \/
         exists c,
           store w !! ck = Some c /\ truthy (data c) = true /\ v = data c)))).
  { destruct (fetch_fresh_footprint env key ck fetchFn (timeout_of config) w1)
      as [(e & w' & -> & Hs & Hf & Hio & Hcl)
         | (v & w' & -> & Hf & Hcl & Hcase)].
    - destruct (stale_fallback_footprint env key ck e w')
        as (v & w'' & -> & Hs' & Hf' & Hio' & Hcl' & Hv).
      exists v, w''. split; [reflexivity | ].
      cbn in Hcl. split; [lia | ].
      right. right. rewrite Hf', Hf, Hs', Hs, Hio', Hio. cbn.
      repeat split; try reflexivity.
      rewrite Hs in Hv. exact Hv.
    - exists v, w'. split; [reflexivity | ].
      cbn in Hcl. split; [lia | ].
      right. left. rewrite Hf. cbn. split; [reflexivity | ].
      destruct Hcase as [(Hs & Hio) | (Hv & Hs & Hio)].
      + left. rewrite Hs. cbn in Hio. cbn. split; [reflexivity | lia].
      + right. rewrite Hs, Hio. cbn. auto. }
  destruct (entry_valid (clock w1) (ttl_of config) c) eqn:Hvalid;
    [ | exact Hmiss].
  destruct c as [c|]; [ | exact Hmiss].
  destruct Hc as [Hc | Hc]; [discriminate | ].
  unfold bind, console_log, ret.
  do 2 eexists. split; [reflexivity | ]. cbn. split; [lia | ].
  left. exists c. cbn in Hvalid. auto 10.
Qed.

(** The bounded read either hands over what the store holds, in time, or
    it hands over null because the store failed or was too slow. *)
Lemma first_read_cases env ck w :
  (exists d,
     env (io_ops w) = IoDone d /\ (d <= 2000)%N /\
     first_read env ck w = Return (store w !! ck) (advance d (count_io w))) \/
  ((forall d, env (io_ops w) = IoDone d -> (2000 < d)%N) /\
   exists d1,
     (d1 <= 2000)%N /\
     first_read env ck w = Return None (advance d1 (count_io w))).
Proof.
  unfold first_read, try_catch, bind, load, await, withTimeout, ret.
  destruct (env (io_ops w)) as [d|d e|]; cbn.
  - destruct (d <=? 2000)%N eqn:Hd; cbn; bool_facts.
    + left. exists d. auto.
    + right. split; [intros d' [= <-]; exact Hd | ].
      exists 2000%N. split; [lia | reflexivity].
  - right. split; [discriminate | ].
    destruct (d <=? 2000)%N eqn:Hd; cbn; bool_facts.
    + exists d. auto.
    + exists 2000%N. split; [lia | reflexivity].
  - right. split; [discriminate | ].
    exists 2000%N. split; [lia | reflexivity].
Qed.

(** Reasoning on a run of [getCached] by cases: the hit, and the miss
    that goes on to the fetch and, on its failure, to the fallback. *)
Lemma getCached_by_cases env key fetchFn config w (P : result jsval -> Prop) :
  let ck := cacheKey (prefix_of config) key in
  (forall c d1,
     env (io_ops w) = IoDone d1 ->
     (d1 <= 2000)%N ->
     store w !! ck = Some c ->
     entry_valid (clock w + Z.of_N d1) (ttl_of config) (Some c) = true ->
     P (Return (data c)
          (write_console (UsingCached key) (advance d1 (count_io w))))) ->
  (forall d1,
     (d1 <= 2000)%N ->
     P (try_catch
          (fetch_fresh env key ck fetchFn (timeout_of config))
          (stale_fallback env key ck)
          (advance d1 (count_io w)))) ->
  P (getCached env key fetchFn config w).
Proof.
  cbv zeta. intros Hhit Hmiss.
  rewrite getCached_phases. cbv zeta. unfold try_catch at 1, bind at 1.
  destruct (first_read_cases env (cacheKey (prefix_of config) key) w)
    as [(d & Henv & Hd & ->) | (_ & d1 & Hd1 & ->)].
  - unfold bind at 1, date_now.
    change (clock (advance d (count_io w))) with (clock w + Z.of_N d).
    destruct (entry_valid (clock w + Z.of_N d) (ttl_of config)
                (store w !! cacheKey (prefix_of config) key)) eqn:Hvalid;
      [ | exact (Hmiss d Hd)].
    destruct (store w !! cacheKey (prefix_of config) key) as [c|] eqn:Hc;
      [ | exact (Hmiss d Hd)].
    exact (Hhit c d Henv Hd eq_refl Hvalid).
  - unfold bind at 1, date_now. cbn [entry_valid]. exact (Hmiss d1 Hd1).
Qed.

(** ** The store around a run of [getCached] *)

(** X1. A run of [getCached] leaves the entries of all other keys as
    they are; the entry of its own key is either as before or the one
    just written, [{data: the value returned, timestamp: now, version:
    CACHE_VERSION}]. *)
Theorem getCached_store_frame env key fetchFn config w :
  exists v w',
    getCached env key fetchFn config w = Return v w' /\
    (forall k,
       k <> cacheKey (prefix_of config) key ->
       store w' !! k = store w !! k) /\
    (store w' !! cacheKey (prefix_of config) key
       = store w !! cacheKey (prefix_of config) key \/
     store w' !! cacheKey (prefix_of config) key
       = Some {| data := v; timestamp := clock w';
                 version := CACHE_VERSION |}).
Proof.
  destruct (getCached_footprint env key fetchFn config w)
    as (v & w' & Hrun & _ & Hcase).
  exists v, w'. split; [exact Hrun | ].
  destruct Hcase
    as [(c & _ & _ & _ & Hs & _)
       | [(_ & [(Hs & _) | (_ & Hs & _)]) | (_ & Hs & _)]];
    rewrite Hs.
  - auto.
  - auto.
  - split.
    + intros k Hk. now rewrite lookup_insert_ne.
    + right. apply lookup_insert_eq.
  - auto.
Qed.

(** X2. A run of [getCached] invokes [fetchFn] once at most, and issues
    one store operation at least (the read) and two at most (the read,
    then the write or the fallback read). *)
Theorem getCached_effort env key fetchFn config w :
  exists v w',
    getCached env key fetchFn config w = Return v w' /\
    (fetch_calls w <= fetch_calls w' <= S (fetch_calls w))%nat /\
    (S (io_ops w) <= io_ops w' <= S (S (io_ops w)))%nat.
Proof.
  destruct (getCached_footprint env key fetchFn config w)
    as (v & w' & Hrun & _ & Hcase).
  exists v, w'. split; [exact Hrun | ].
  destruct Hcase
    as [(c & _ & _ & _ & _ & Hf & Hio)
       | [(Hf & [(_ & Hio) | (_ & _ & Hio)]) | (Hf & _ & Hio & _)]];
    rewrite Hf; lia.
Qed.

(** X3. When the bounded fetch fails or would fail ([fetchFn] rejects,
    or settles only after the timeout), a run of [getCached] writes
    nothing, and what it returns is null or the data of the stored
    entry: a value that arrives too late is never returned. *)
Theorem getCached_failed_fetch_keeps_store env key fetchFn config w d err :
  withTimeout (fetchFn (fetch_calls w)) (timeout_of config)
    = Settles d (Rejected err) ->
  exists v w',
    getCached env key fetchFn config w = Return v w' /\
    store w' = store w /\
    (v = JNull \/
     exists c,
       store w !! cacheKey (prefix_of config) key = Some c /\ v = data c).
Proof.
  intros Hfetch.
  apply (getCached_by_cases env key fetchFn config w).
  - intros c d1 _ _ Hc _. do 2 eexists. split; [reflexivity | ].
    split; [reflexivity | eauto].
  - intros d1 _. unfold try_catch.
    rewrite (fetch_fresh_rejected _ _ _ _ _ _ d err) by exact Hfetch.
    match goal with
    | |- context [stale_fallback ?e ?k ?c ?x ?y] =>
        destruct (stale_fallback_footprint e k c x y)
          as (v & w' & -> & Hs & _ & _ & _ & Hv)
    end.
    exists v, w'. split; [reflexivity | ]. split; [exact Hs | ].
    destruct Hv as [-> | (c & Hc & _ & ->)]; [auto | ].
    right. exists c. auto.
Qed.

Lemma getCached_failed_fetch_keeps_store_witness :
  exists v w',
    getCached quick_store "products" fetch_slow no_config old_world
      = Return v w' /\
    store w' = store old_world /\
    (v = JNull \/
     exists c,
       store old_world !! cacheKey (prefix_of no_config) "products" = Some c /\
       v = data c).
Proof.
  apply (getCached_failed_fetch_keeps_store quick_store "products" fetch_slow
           no_config old_world 10000 (TimedOut 10000)).
  reflexivity.
Defined.

(** X4. After a miss, a fetch that succeeds within the timeout is
    returned as soon as it has arrived: the write is not awaited, so the
    run ends at most 2000 ms (the read) after the time the fetch took,
    and a write that fails or stalls leaves the store as it was and the
    returned value as fetched. *)
Theorem getCached_write_not_awaited env key fetchFn config w v d :
  entry_valid (clock w) (ttl_of config)
    (store w !! cacheKey (prefix_of config) key) = false ->
  fetchFn (fetch_calls w) = Settles d (Fulfilled v) ->
  (d <= Z.to_N (timeout_of config))%N ->
  exists w',
    getCached env key fetchFn config w = Return v w' /\
    clock w' <= clock w + 2000 + Z.of_N d /\
    ((forall ds, env (S (io_ops w)) <> IoDone ds) -> store w' = store w).
Proof.
  intros Hmiss Hfetch Hd.
  destruct (getCached_miss_run env key fetchFn config w Hmiss)
    as (d1 & Hd1 & ->).
  unfold try_catch.
  destruct (truthy v) eqn:Hv.
  - rewrite (fetch_fresh_truthy _ _ _ _ _ _ d v) by assumption.
    cbv zeta. eexists. split; [reflexivity | ].
    change (io_ops (advance d1 (count_io w))) with (S (io_ops w)).
    destruct (env (S (io_ops w))) as [ds|ds e|] eqn:Henv; cbn.
    + split; [lia | ]. intros Hno. now destruct (Hno ds).
    + split; [lia | reflexivity].
    + split; [lia | reflexivity].
  - rewrite (fetch_fresh_falsy _ _ _ _ _ _ d v) by assumption.
    eexists. split; [reflexivity | ]. cbn. split; [lia | reflexivity].
Qed.

Lemma getCached_write_not_awaited_witness :
  exists w',
    getCached read_only_store "products" fetch_products no_config empty_world
      = Return (JArr [JObj [("id", JNum 1)]]) w' /\
    clock w' <= clock empty_world + 2000 + 30 /\
    store w' = store empty_world.
Proof.
  destruct (getCached_write_not_awaited read_only_store "products"
              fetch_products no_config empty_world
              (JArr [JObj [("id", JNum 1)]]) 30)
    as (w' & Hrun & Hclock & Hstore).
  - reflexivity.
  - reflexivity.
  - vm_compute. discriminate.
  - exists w'. split; [exact Hrun | ]. split; [exact Hclock | ].
    apply Hstore. intros ds. discriminate.
Defined.

(** X5. When the first read fails, stalls or takes more than 2000 ms,
    [getCached] behaves as on a miss and invokes [fetchFn], whatever the
    store holds, a valid entry included. *)
Theorem getCached_slow_read_refetches env key fetchFn config w :
  (forall d, env (io_ops w) = IoDone d -> (2000 < d)%N) ->
  exists v w',
    getCached env key fetchFn config w = Return v w' /\
    fetch_calls w' = S (fetch_calls w).
Proof.
  intros Hslow.
  apply (getCached_by_cases env key fetchFn config w).
  - intros c d1 Henv Hd1 _ _. specialize (Hslow d1 Henv). lia.
  - intros d1 _. unfold try_catch.
    match goal with
    | |- context [fetch_fresh ?e ?k ?c ?f ?t ?x] =>
        destruct (fetch_fresh_spec e k c f t x)
          as [(v & w' & -> & Hn) | (err & w' & -> & Hn)]
    end.
    + exists v, w'. split; [reflexivity | exact Hn].
    + match goal with
      | |- context [stale_fallback ?e ?k ?c ?x ?y] =>
          destruct (stale_fallback_spec e k c x y)
            as (v & w'' & -> & _ & Hn' & _)
      end.
      exists v, w''. split; [reflexivity | ]. rewrite Hn'. exact Hn.
Qed.

Lemma getCached_slow_read_refetches_witness :
  store warm_world !! cacheKey (prefix_of no_config) "products"
    = Some recent_entry /\
  exists v w',
    getCached slow_store "products" fetch_products no_config warm_world
      = Return v w' /\
    fetch_calls w' = 1%nat.
Proof.
  split; [reflexivity | ].
  apply (getCached_slow_read_refetches slow_store "products" fetch_products
           no_config warm_world).
  intros d [= <-]. lia.
Defined.

(** X6. An entry of another version, or one whose age has reached the
    ttl, is never served as a hit: [getCached] invokes [fetchFn]. *)
Theorem getCached_gate env key fetchFn config w e :
  store w !! cacheKey (prefix_of config) key = Some e ->
  version e <> CACHE_VERSION \/ ttl_of config <= clock w - timestamp e ->
  exists v w',
    getCached env key fetchFn config w = Return v w' /\
    fetch_calls w' = S (fetch_calls w).
Proof.
  intros Hstore Hgate.
  apply getCached_miss_fetches.
  rewrite Hstore. cbn. apply andb_false_iff.
  destruct Hgate as [Hver | Hage].
  - left. now apply String.eqb_neq.
  - right. apply Z.ltb_ge. exact Hage.
Qed.

Lemma getCached_gate_witness :
  exists v w',
    getCached quick_store "products" fetch_products no_config old_world
      = Return v w' /\
    fetch_calls w' = 1%nat.
Proof.
  apply (getCached_gate quick_store "products" fetch_products no_config
           old_world old_entry).
  - reflexivity.
  - left. discriminate.
Defined.

(** ** The other operations and the store *)

Lemma preCache_footprint env key fetchFn config w :
  let ck := cacheKey (prefix_of config) key in
  let r := preCache env key fetchFn config w in
  clock w <= clock (final_world r) /\
  fetch_calls (final_world r) = S (fetch_calls w) /\
  (io_ops w <= io_ops (final_world r) <= S (io_ops w))%nat /\
  (store (final_world r) = store w \/
   exists v ts,
     truthy v = true /\ ts <= clock (final_world r) /\
     store (final_world r)
       = <[ck := {| data := v; timestamp := ts;
                    version := CACHE_VERSION |}]> (store w)).
Proof.
  cbv zeta.
  unfold preCache, try_catch, bind, invoke, await, date_now, save,
    console_log, ret.
  cbn.
  destruct (fetchFn (fetch_calls w)) as [d [v|e]|]; cbn.
  - destruct (truthy v) eqn:Hv; cbn.
    + destruct (env (io_ops w)) as [ds|ds e|]; cbn;
        (split; [lia | ]); (split; [reflexivity | ]); (split; [lia | ]).
      * right. exists v, (clock w + Z.of_N d).
        split; [exact Hv | ]. split; [lia | reflexivity].
      * left. reflexivity.
      * left. reflexivity.
    + split; [lia | ]. split; [reflexivity | ]. split; [lia | ].
      left. reflexivity.
  - split; [lia | ]. split; [reflexivity | ]. split; [lia | ].
    left. reflexivity.
  - split; [lia | ]. split; [reflexivity | ]. split; [lia | ].
    left. reflexivity.
Qed.

Lemma invalidateCache_footprint env key pre w :
  let ck := cacheKey (default "cache" pre) key in
  let r := invalidateCache env key pre w in
  clock w <= clock (final_world r) /\
  fetch_calls (final_world r) = fetch_calls w /\
  (store (final_world r) = store w \/
   store (final_world r) = delete ck (store w)).
Proof.
  cbv zeta.
  assert (Hrun : invalidateCache env key pre w
                 = match invalidateCache_call env key pre w with
                   | Return p w' => await p w'
                   | Throw e w' => Throw e w'
                   | Hang w' => Hang w'
                   end) by reflexivity.
  rewrite Hrun, invalidateCache_call_run. clear Hrun.
  destruct (env (io_ops w)) as [d|d e|]; cbn;
    (split; [lia | ]); (split; [reflexivity | ]); auto.
Qed.

(** The removals of [keys.map] take entries out of the store and touch
    no key but those of the list. *)
Lemma invalidate_each_frame env pre keys :
  forall w ps w1,
    invalidate_each env keys pre w = Return ps w1 ->
    (forall k e, store w1 !! k = Some e -> store w !! k = Some e) /\
    (forall k,
       (forall key, In key keys -> cacheKey (default "cache" pre) key <> k) ->
       store w1 !! k = store w !! k).
Proof.
  induction keys as [|key rest IH]; intros w ps w1.
  - cbn. intros [= <- <-]. auto.
  - cbn [invalidate_each]. unfold bind at 1.
    rewrite invalidateCache_call_run.
    set (w' := count_io _).
    destruct (invalidate_each_spec env pre rest w') as (w2 & Hrun & _).
    unfold bind. rewrite Hrun. cbn. intros [= <- <-].
    destruct (IH w' _ w2 Hrun) as (Hsub & Hframe).
    assert (Hsub' : forall k e, store w' !! k = Some e -> store w !! k = Some e).
    { intros k e. unfold w'. destruct (env (io_ops w)); cbn; auto.
      intros Hk. apply lookup_delete_Some in Hk. tauto. }
    assert (Hframe' : forall k, cacheKey (default "cache" pre) key <> k ->
                                store w' !! k = store w !! k).
    { intros k Hk. unfold w'. destruct (env (io_ops w)); cbn; auto.
      now apply lookup_delete_ne. }
    split.
    + intros k e Hk. auto.
    + intros k Hk. rewrite Hframe.
      * apply Hframe'. apply Hk. now left.
      * intros key' Hin. apply Hk. now right.
Qed.

(** A run of [invalidateCaches]: the removals, then the wait for all of
    them. *)
Lemma invalidateCaches_run env keys pre w :
  exists w1,
    invalidate_each env keys pre
      (write_console (InvalidatingMany (length keys)) w)
      = Return (map (fun n => removal_promise (env n))
                    (seq (io_ops w) (length keys))) w1 /\
    invalidateCaches env keys pre w
      = bind (await (promise_all
                       (map (fun n => removal_promise (env n))
                            (seq (io_ops w) (length keys)))))
             (fun _ => ret tt) w1 /\
    clock w1 = clock w /\
    fetch_calls w1 = fetch_calls w.
Proof.
  set (w0 := write_console (InvalidatingMany (length keys)) w).
  destruct (invalidate_each_spec env pre keys w0)
    as (w1 & Hrun & _ & Hclock & Hcalls & _).
  change (io_ops w0) with (io_ops w) in *.
  exists w1. split; [exact Hrun | ]. split; [ | auto].
  unfold invalidateCaches, bind at 1, console_log. fold w0.
  unfold bind at 1. rewrite Hrun. reflexivity.
Qed.

Lemma await_all_clock (ps : list (promise unit)) w1 :
  clock w1
  <= clock (final_world (bind (await (promise_all ps)) (fun _ => ret tt) w1))
  /\ fetch_calls
       (final_world (bind (await (promise_all ps)) (fun _ => ret tt) w1))
     = fetch_calls w1.
Proof.
  unfold bind, await, ret.
  destruct (promise_all ps) as [d [vs|e]|]; cbn; split; reflexivity || lia.
Qed.

Lemma all_fulfilled_each {A : Type} (ps : list (promise A)) d vs :
  all_fulfilled ps = Some (d, vs) ->
  forall p, In p ps -> exists d' a, p = Settles d' (Fulfilled a).
Proof.
  revert d vs. induction ps as [|p rest IH]; intros d vs Hall q Hin;
    [destruct Hin | ].
  cbn in Hall. destruct p as [d0 [a|e]|]; try discriminate.
  destruct (all_fulfilled rest) as [[d' vs']|] eqn:Hrest; [ | discriminate].
  destruct Hin as [<- | Hin]; eauto.
Qed.

Lemma store_ok_step w w' :
  store_ok w ->
  clock w <= clock w' ->
  (forall k e,
     store w' !! k = Some e ->
     store w !! k = Some e \/
     (truthy (data e) = true /\ timestamp e <= clock w')) ->
  store_ok w'.
Proof.
  intros Hok Hclock Hstep k e Hk.
  destruct (Hstep k e Hk) as [Hold | Hnew]; [ | exact Hnew].
  destruct (Hok k e Hold). split; [assumption | lia].
Qed.

(** X7. The operations of the cache manager keep the invariant of the
    store: when every stored entry holds truthy data and a timestamp
    that is not in the future, this is still so after [getCached],
    [preCache], [invalidateCache] and [invalidateCaches], however they
    end. *)
Theorem store_ok_preserved env key keys pre fetchFn config w :
  store_ok w ->
  store_ok (final_world (getCached env key fetchFn config w)) /\
  store_ok (final_world (preCache env key fetchFn config w)) /\
  store_ok (final_world (invalidateCache env key pre w)) /\
  store_ok (final_world (invalidateCaches env keys pre w)).
Proof.
  intros Hok. split; [ | split; [ | split]].
  - destruct (getCached_footprint env key fetchFn config w)
      as (v & w' & -> & Hclock & Hcase).
    cbn [final_world]. apply (store_ok_step w); [exact Hok | exact Hclock | ].
    intros k e Hk.
    destruct Hcase
      as [(c & _ & _ & _ & Hs & _)
         | [(_ & [(Hs & _) | (Hv & Hs & _)]) | (_ & Hs & _)]];
      rewrite Hs in Hk; auto.
    destruct (decide (cacheKey (prefix_of config) key = k)) as [<- | Hne].
    + rewrite lookup_insert_eq in Hk. injection Hk as <-.
      right. cbn. split; [exact Hv | lia].
    + rewrite lookup_insert_ne in Hk by exact Hne. auto.
  - destruct (preCache_footprint env key fetchFn config w)
      as (Hclock & _ & _ & Hcase).
    apply (store_ok_step w); [exact Hok | exact Hclock | ].
    intros k e Hk.
    destruct Hcase as [Hs | (v & ts & Hv & Hts & Hs)]; rewrite Hs in Hk;
      auto.
    destruct (decide (cacheKey (prefix_of config) key = k)) as [<- | Hne].
    + rewrite lookup_insert_eq in Hk. injection Hk as <-.
      right. cbn. auto.
    + rewrite lookup_insert_ne in Hk by exact Hne. auto.
  - destruct (invalidateCache_footprint env key pre w)
      as (Hclock & _ & Hcase).
    apply (store_ok_step w); [exact Hok | exact Hclock | ].
    intros k e Hk. left.
    destruct Hcase as [Hs | Hs]; rewrite Hs in Hk; auto.
    apply lookup_delete_Some in Hk. tauto.
  - destruct (invalidateCaches_run env keys pre w)
      as (w1 & Heach & -> & Hclock & _).
    destruct (invalidate_each_frame env pre keys _ _ _ Heach) as (Hsub & _).
    match goal with
    | |- context [promise_all ?ps] =>
        destruct (await_all_run ps w1) as (Hstore & _);
        destruct (await_all_clock ps w1) as (Hcl & _)
    end.
    cbv zeta in Hstore.
    apply (store_ok_step w); [exact Hok | lia | ].
    intros k e Hk. left. rewrite Hstore in Hk. apply Hsub in Hk. exact Hk.
Qed.

Lemma store_ok_preserved_witness :
  store_ok warm_world /\
  store_ok (final_world
              (getCached quick_store "products" fetch_products no_config
                 warm_world)).
Proof.
  assert (Hok : store_ok warm_world).
  { intros k e Hk.
    destruct (decide ("cache:products" = k)) as [<- | Hne].
    - cbn in Hk. rewrite lookup_singleton_eq in Hk. injection Hk as <-.
      split; [reflexivity | cbn; lia].
    - cbn in Hk. rewrite lookup_singleton_ne in Hk by exact Hne.
      discriminate. }
  split; [exact Hok | ].
  apply (store_ok_preserved quick_store "products" [] None fetch_products
           no_config warm_world Hok).
Defined.

(** X8. Warming then reading: when [preCache] has fetched a truthy value
    and its write has completed, an immediate [getCached] for the same
    key and configuration, whose read answers in time and within the
    ttl, returns that value without invoking its [fetchFn], whatever the
    store held for the key before. *)
Theorem preCache_then_getCached env key fetchFn config w v d ds d2 :
  fetchFn (fetch_calls w) = Settles d (Fulfilled v) ->
  truthy v = true ->
  env (io_ops w) = IoDone ds ->
  env (S (io_ops w)) = IoDone d2 ->
  (d2 <= 2000)%N ->
  Z.of_N ds + Z.of_N d2 < ttl_of config ->
  exists w1,
    preCache env key fetchFn config w = Return tt w1 /\
    forall fetchFn',
      exists w2,
        getCached env key fetchFn' config w1 = Return v w2 /\
        fetch_calls w2 = fetch_calls w1.
Proof.
  intros Hfetch Hv Hsave Hread Hd2 Httl.
  unfold preCache, try_catch, bind, invoke, await, date_now, save,
    console_log, ret.
  cbn. rewrite Hfetch. cbn. rewrite Hv. cbn. rewrite Hsave. cbn.
  eexists. split; [reflexivity | ].
  intros fetchFn'. eexists. split.
  - apply (getCached_hit_run env key fetchFn' config _
             {| data := v; timestamp := clock w + Z.of_N d;
                version := CACHE_VERSION |} d2).
    + cbn. apply lookup_insert_eq.
    + exact Hread.
    + exact Hd2.
    + reflexivity.
    + cbn. lia.
  - reflexivity.
Qed.

Lemma preCache_then_getCached_witness :
  exists w1,
    preCache quick_store "products" fetch_products no_config warm_world
      = Return tt w1 /\
    exists w2,
      getCached quick_store "products" fetch_offline no_config w1
        = Return (JArr [JObj [("id", JNum 1)]]) w2 /\
      fetch_calls w2 = fetch_calls w1.
Proof.
  destruct (preCache_then_getCached quick_store "products" fetch_products
              no_config warm_world (JArr [JObj [("id", JNum 1)]]) 30 5 5)
    as (w1 & Hrun & Hnext).
  - reflexivity.
  - reflexivity.
  - reflexivity.
  - reflexivity.
  - lia.
  - vm_compute. reflexivity.
  - exists w1. split; [exact Hrun | ]. apply Hnext.
Defined.

(** X9. However it ends, a run of [preCache] invokes [fetchFn] exactly
    once, issues one store operation at most, and leaves the entries of
    all other keys as they are. *)
Theorem preCache_store_frame env key fetchFn config w :
  let r := preCache env key fetchFn config w in
  fetch_calls (final_world r) = S (fetch_calls w) /\
  (io_ops w <= io_ops (final_world r) <= S (io_ops w))%nat /\
  forall k,
    k <> cacheKey (prefix_of config) key ->
    store (final_world r) !! k = store w !! k.
Proof.
  cbv zeta.
  destruct (preCache_footprint env key fetchFn config w)
    as (_ & Hcalls & Hio & Hcase).
  split; [exact Hcalls | ]. split; [exact Hio | ].
  intros k Hk.
  destruct Hcase as [-> | (v & ts & _ & _ & ->)]; [reflexivity | ].
  now rewrite lookup_insert_ne.
Qed.

(** ** Invalidation of several keys *)

(** X10. When [invalidateCaches] returns, the entry of every key of the
    list is gone from the store. *)
Theorem invalidateCaches_returned_all_gone env keys pre w w' :
  invalidateCaches env keys pre w = Return tt w' ->
  forall key,
    In key keys ->
    store w' !! cacheKey (default "cache" pre) key = None.
Proof.
  intros Hret key Hin.
  set (w0 := write_console (InvalidatingMany (length keys)) w).
  destruct (invalidate_each_spec env pre keys w0)
    as (w1 & Hrun & _ & _ & _ & _ & Hdel).
  change (io_ops w0) with (io_ops w) in *.
  set (ps := map (fun n => removal_promise (env n))
                 (seq (io_ops w) (length keys))) in *.
  assert (Heq : invalidateCaches env keys pre w
                = bind (await (promise_all ps)) (fun _ => ret tt) w1).
  { unfold invalidateCaches, bind at 1, console_log. fold w0.
    unfold bind at 1. rewrite Hrun. reflexivity. }
  rewrite Heq in Hret. clear Heq.
  assert (Hstore : store w' = store w1 /\
                   exists d vs, all_fulfilled ps = Some (d, vs)).
  { revert Hret. unfold bind, await, promise_all, ret.
    destruct (first_rejection ps) as [[d e]|]; [discriminate | ].
    destruct (all_fulfilled ps) as [[d vs]|]; [ | discriminate].
    intros [= <-]. eauto. }
  destruct Hstore as (-> & d & vs & Hall).
  apply In_nth_error in Hin. destruct Hin as (i & Hi).
  assert (Hlt : (i < length keys)%nat)
    by (apply nth_error_Some; congruence).
  destruct (all_fulfilled_each ps d vs Hall
              (removal_promise (env (io_ops w + i)%nat)))
    as (d' & a & Hp).
  { apply in_map_iff. exists (io_ops w + i)%nat.
    split; [reflexivity | ]. apply in_seq. lia. }
  destruct (env (io_ops w + i)%nat) as [d0|d0 e0|] eqn:Henv;
    try discriminate.
  apply (Hdel i key d0); [ | exact Henv].
  rewrite <- Hi. clear. revert i.
  induction keys as [|k rest IH]; intros [|i]; cbn; auto.
Qed.

Lemma invalidateCaches_returned_all_gone_witness :
  store (final_world
           (invalidateCaches quick_store ["k1"; "k2"] None two_keys_world))
    !! cacheKey "cache" "k2" = None.
Proof.
  apply (invalidateCaches_returned_all_gone quick_store ["k1"; "k2"] None
           two_keys_world).
  - reflexivity.
  - right. left. reflexivity.
Defined.

(** X11. However it ends, [invalidateCaches] only takes entries out of the
    store, and only those of the keys of its list: every other key keeps
    its entry. With no key at all it returns at once, having issued no
    store operation. *)
Theorem invalidateCaches_frame env keys pre w :
  let r := invalidateCaches env keys pre w in
  (forall k e,
     store (final_world r) !! k = Some e -> store w !! k = Some e) /\
  (forall k,
     (forall key, In key keys -> cacheKey (default "cache" pre) key <> k) ->
     store (final_world r) !! k = store w !! k) /\
  (keys = [] ->
   exists w',
     r = Return tt w' /\ store w' = store w /\ clock w' = clock w /\
     io_ops w' = io_ops w).
Proof.
  cbv zeta.
  destruct (invalidateCaches_run env keys pre w)
    as (w1 & Heach & Hrun & Hclock & _).
  destruct (invalidate_each_frame env pre keys _ _ _ Heach)
    as (Hsub & Hframe).
  rewrite Hrun.
  match goal with
  | |- context [promise_all ?ps] =>
      destruct (await_all_run ps w1) as (Hstore & _)
  end.
  cbv zeta in Hstore.
  split; [ | split].
  - intros k e Hk. rewrite Hstore in Hk. apply Hsub in Hk. exact Hk.
  - intros k Hk. rewrite Hstore. apply Hframe. exact Hk.
  - intros ->. cbn in Heach. injection Heach as <-.
    cbn. eexists. split; [reflexivity | ]. cbn.
    split; [reflexivity | ]. split; [lia | reflexivity].
Qed.

(** ** Cache keys *)

Lemma append_cancel_l (p a b : string) :
  (p ++ a)%string = (p ++ b)%string -> a = b.
Proof.
  induction p as [|c p IH]; cbn; [auto | ].
  intros [= H]. auto.
Qed.

Lemma no_colon_split (p1 p2 k1 k2 : string) :
  no_colon p1 = true ->
  no_colon p2 = true ->
  (p1 ++ String ":"%char k1)%string = (p2 ++ String ":"%char k2)%string ->
  p1 = p2 /\ k1 = k2.
Proof.
  revert p2. induction p1 as [|c p1 IH]; intros [|c2 p2] H1 H2; cbn.
  - intros [= ->]. auto.
  - intros [= <- _]. cbn in H2. discriminate.
  - intros [= -> _]. cbn in H1. discriminate.
  - intros [= -> Heq]. cbn in H1, H2.
    apply andb_true_iff in H1. apply andb_true_iff in H2.
    destruct (IH p2) as (-> & ->); tauto.
Qed.

(** X12. Cache keys do not collide within a prefix: under one prefix,
    two different keys have different cache keys. Across prefixes they
    do not collide either as long as the prefixes hold no colon: two
    pairs that differ in the prefix or in the key then have different
    cache keys. *)
Theorem cacheKey_distinct pre1 pre2 key1 key2 :
  (pre1 = pre2 /\ key1 <> key2) \/
  (no_colon pre1 = true /\ no_colon pre2 = true /\
   (pre1 <> pre2 \/ key1 <> key2)) ->
  cacheKey pre1 key1 <> cacheKey pre2 key2.
Proof.
  unfold cacheKey. intros [(<- & Hk) | (H1 & H2 & Hne)] Heq.
  - apply append_cancel_l in Heq. injection Heq as Heq. contradiction.
  - destruct (no_colon_split _ _ _ _ H1 H2 Heq) as (Hp & Hk). tauto.
Qed.

Lemma cacheKey_distinct_witness :
  cacheKey "cache" "products" <> cacheKey "wishlist" "products".
Proof.
  apply (cacheKey_distinct "cache" "wishlist" "products" "products").
  right. split; [reflexivity | ]. split; [reflexivity | ].
  left. discriminate.
Defined.

(** ** The validity check *)

(** What an answer true of [isCacheValid] rests on. *)
Lemma isCacheValid_run_true env key ttl_ms pre w w' :
  isCacheValid env key ttl_ms pre w = Return true w' ->
  exists e,
    store w !! cacheKey (default "cache" pre) key = Some e /\
    version e = CACHE_VERSION /\
    clock w' - timestamp e < default (5 * 60 * 1000) ttl_ms.
Proof.
  unfold isCacheValid, try_catch, bind, load, await, date_now, ret.
  destruct (env (io_ops w)) as [d|d e|]; cbn; try discriminate.
  intros [= Hvalid <-]. cbn.
  destruct (store w !! cacheKey (default "cache" pre) key) as [c|];
    [ | discriminate].
  cbn in Hvalid. apply andb_true_iff in Hvalid.
  destruct Hvalid as (Hver & Hage).
  exists c. split; [reflexivity | ].
  split; [now apply String.eqb_eq | now apply Z.ltb_lt].
Qed.

(** X13. [isCacheValid] never throws and never changes the store. It
    answers true only when the store holds for the key an entry of the
    current version whose age is below the ttl; it answers false when
    the read fails; and, having no timer, it waits for ever on a store
    that does not answer. *)
Theorem isCacheValid_sound env key ttl_ms pre w :
  let ck := cacheKey (default "cache" pre) key in
  let r := isCacheValid env key ttl_ms pre w in
  (forall e w', r <> Throw e w') /\
  store (final_world r) = store w /\
  (forall w',
     r = Return true w' ->
     exists e,
       store w !! ck = Some e /\
       version e = CACHE_VERSION /\
       clock w' - timestamp e < default (5 * 60 * 1000) ttl_ms) /\
  (forall d e,
     env (io_ops w) = IoError d e -> exists w', r = Return false w') /\
  (env (io_ops w) = IoStall -> r = Hang (count_io w)).
Proof.
  cbv zeta.
  unfold isCacheValid, try_catch, bind, load, await, date_now, ret.
  destruct (env (io_ops w)) as [d|d e|]; cbn.
  - split; [discriminate | ]. split; [reflexivity | ].
    split; [ | split; discriminate].
    intros w' [= Hvalid <-]. cbn.
    destruct (store w !! cacheKey (default "cache" pre) key) as [c|];
      [ | discriminate].
    cbn in Hvalid. apply andb_true_iff in Hvalid.
    destruct Hvalid as (Hver & Hage).
    exists c. split; [reflexivity | ].
    split; [now apply String.eqb_eq | now apply Z.ltb_lt].
  - split; [discriminate | ]. split; [reflexivity | ].
    split; [discriminate | ]. split; [eauto | discriminate].
  - split; [discriminate | ]. split; [reflexivity | ].
    split; [discriminate | ]. split; [discriminate | reflexivity].
Qed.

(** X14. Once [invalidateCache] has returned, the validity check for the
    same key and prefix does not answer true, whatever the ttl. *)
Theorem invalidate_then_isCacheValid env key pre ttl_ms w w1 w2 :
  invalidateCache env key pre w = Return tt w1 ->
  isCacheValid env key ttl_ms pre w1 <> Return true w2.
Proof.
  intros Hinv Hvalid.
  destruct (isCacheValid_run_true env key ttl_ms pre w1 w2 Hvalid)
    as (e & He & _).
  revert Hinv.
  unfold invalidateCache, invalidateCache_call, bind, console_log, remove,
    await.
  cbn. destruct (env (io_ops w)) as [d|d e'|]; cbn; try discriminate.
  intros [= <-]. cbn in He. rewrite lookup_delete_eq in He. discriminate.
Qed.

Lemma invalidate_then_isCacheValid_witness :
  isCacheValid quick_store "products" None None
    (final_world (invalidateCache quick_store "products" None warm_world))
  <> Return true empty_world.
Proof.
  apply (invalidate_then_isCacheValid quick_store "products" None None
           warm_world).
  reflexivity.
Defined.

(** * Properties of the product images *)

Lemma getFullImageUrl_absent (imageUrl : option string) :
  absent imageUrl = true -> getFullImageUrl imageUrl = None.
Proof.
  destruct imageUrl as [u|]; [ | reflexivity].
  intros Habsent. unfold getFullImageUrl. now rewrite Habsent.
Qed.

Lemma getFullImageUrl_kept (u : string) :
  absent (Some u) = false ->
  startsWith u "http://" || startsWith u "https://" = true ->
  getFullImageUrl (Some u) = Some u.
Proof.
  intros Hpresent Hfull. unfold getFullImageUrl. now rewrite Hpresent, Hfull.
Qed.

Lemma getFullImageUrl_relative (u : string) :
  absent (Some u) = false ->
  startsWith u "http://" || startsWith u "https://" = false ->
  getFullImageUrl (Some u) = Some (SUPABASE_STORAGE_URL ++ u)%string.
Proof.
  intros Hpresent Hrel. unfold getFullImageUrl. now rewrite Hpresent, Hrel.
Qed.

Lemma storage_url_is_full (u : string) :
  absent (Some (SUPABASE_STORAGE_URL ++ u)%string) = false /\
  startsWith (SUPABASE_STORAGE_URL ++ u)%string "http://"
  || startsWith (SUPABASE_STORAGE_URL ++ u)%string "https://" = true.
Proof. split; reflexivity. Qed.

(** X15. [getFullImageUrl] is idempotent: a URL it has produced is given
    back unchanged, the storage base is not prepended twice. *)
Theorem getFullImageUrl_idempotent (imageUrl : option string) :
  getFullImageUrl (getFullImageUrl imageUrl) = getFullImageUrl imageUrl.
Proof.
  destruct imageUrl as [u|]; [ | reflexivity].
  destruct (absent (Some u)) eqn:Hpresent.
  - now rewrite (getFullImageUrl_absent (Some u) Hpresent).
  - destruct (startsWith u "http://" || startsWith u "https://") eqn:Hfull.
    + now rewrite !(getFullImageUrl_kept u Hpresent Hfull).
    + rewrite (getFullImageUrl_relative u Hpresent Hfull).
      destruct (storage_url_is_full u) as (Hp & Hf).
      apply (getFullImageUrl_kept _ Hp Hf).
Qed.

(** X16. [getFullImageUrl] answers undefined exactly for an absent
    (undefined or empty) URL, and every URL it answers is a full one,
    starting with http:// or https://. *)
Theorem getFullImageUrl_full (imageUrl : option string) :
  (getFullImageUrl imageUrl = None <-> absent imageUrl = true) /\
  (forall r,
     getFullImageUrl imageUrl = Some r ->
     startsWith r "http://" || startsWith r "https://" = true).
Proof.
  destruct imageUrl as [u|]; [ | split; [tauto | discriminate]].
  unfold getFullImageUrl.
  destruct (absent (Some u)) eqn:Hpresent; [split; [tauto | discriminate] | ].
  destruct (startsWith u "http://" || startsWith u "https://") eqn:Hfull.
  - split; [split; discriminate | ]. now intros r [= <-].
  - split; [split; discriminate | ]. intros r [= <-].
    apply storage_url_is_full.
Qed.

(** X17. Paths under /winter/ and /perfums/ are rejected by
    [isValidImageUrl], but only as raw paths: once a URL has gone
    through [getFullImageUrl] the check accepts it whenever it is
    present. The check is therefore to be made on the raw path, as
    [transformProduct] does. *)
Theorem isValidImageUrl_raw_only (imageUrl : option string) (rest : string) :
  isValidImageUrl (Some ("/winter/" ++ rest)%string) = false /\
  isValidImageUrl (Some ("/perfums/" ++ rest)%string) = false /\
  isValidImageUrl (getFullImageUrl imageUrl) = negb (absent imageUrl).
Proof.
  split; [destruct rest; reflexivity | ].
  split; [destruct rest; reflexivity | ].
  destruct imageUrl as [u|]; [ | reflexivity].
  unfold getFullImageUrl.
  destruct (absent (Some u)) eqn:Hpresent; [reflexivity | ].
  destruct (startsWith u "http://" || startsWith u "https://") eqn:Hfull.
  - unfold isValidImageUrl. now rewrite Hpresent, Hfull.
  - destruct (storage_url_is_full u) as (Hp & Hf).
    unfold isValidImageUrl. now rewrite Hp, Hf.
Qed.

Lemma isValidImageUrl_present (imageUrl : option string) :
  isValidImageUrl imageUrl = true ->
  exists u, imageUrl = Some u /\ u <> "".
Proof.
  destruct imageUrl as [u|]; [ | discriminate].
  unfold isValidImageUrl. destruct (absent (Some u)) eqn:Hpresent;
    [discriminate | ].
  intros _. exists u. split; [reflexivity | ].
  cbn in Hpresent. now apply String.eqb_neq.
Qed.

Lemma primaryImage_from_images (images : option (list product_image)) u :
  primaryImage images = Some u ->
  exists imgs img,
    images = Some imgs /\ In img imgs /\ image_url img = Some u.
Proof.
  destruct images as [imgs|]; [ | discriminate].
  unfold primaryImage, url_or.
  destruct (List.find is_primary imgs) as [img|] eqn:Hfind.
  - destruct (absent (image_url img)) eqn:Habs.
    + destruct imgs as [|img0 rest]; [discriminate | ].
      intros H. exists (img0 :: rest), img0. split; [reflexivity | ].
      split; [now left | exact H].
    + intros H. exists imgs, img. split; [reflexivity | ].
      apply find_some in Hfind. tauto.
  - cbn [absent]. destruct imgs as [|img0 rest]; [discriminate | ].
    intros H. exists (img0 :: rest), img0. split; [reflexivity | ].
    split; [now left | exact H].
Qed.

(** X18. A product passes the filter of the listings only if one of its
    own images has a present path that [isValidImageUrl] accepts; the
    URL shown is then the full URL of that very image. A product
    without images is never shown. *)
Theorem transformProduct_shown (product : product_row) :
  hasValidImage (transformProduct product) = true ->
  exists imgs img u,
    product_images product = Some imgs /\
    In img imgs /\
    image_url img = Some u /\
    u <> "" /\
    isValidImageUrl (Some u) = true /\
    view_image_url (transformProduct product) = getFullImageUrl (Some u).
Proof.
  unfold transformProduct. cbn. intros Hvalid.
  destruct (isValidImageUrl_present _ Hvalid) as (u & Hprimary & Hne).
  destruct (primaryImage_from_images _ u Hprimary)
    as (imgs & img & Himgs & Hin & Hurl).
  exists imgs, img, u. rewrite Hprimary in *. auto 10.
Qed.

Lemma transformProduct_shown_witness :
  exists imgs img u,
    product_images shirt_row = Some imgs /\
    In img imgs /\
    image_url img = Some u /\
    u <> "" /\
    isValidImageUrl (Some u) = true /\
    view_image_url (transformProduct shirt_row) = getFullImageUrl (Some u).
Proof.
  apply (transformProduct_shown shirt_row). reflexivity.
Defined.

(** X19. The primary image decides: when the first image marked primary
    has a present path, the URL shown and the verdict of the filter are
    those of that path, whatever the other images are; a product whose
    primary image lies under /winter/ or /perfums/ is filtered out even
    if its other images are fine. *)
Theorem transformProduct_primary_decides (product : product_row) imgs img u :
  product_images product = Some imgs ->
  List.find is_primary imgs = Some img ->
  image_url img = Some u ->
  u <> "" ->
  view_image_url (transformProduct product) = getFullImageUrl (Some u) /\
  hasValidImage (transformProduct product) = isValidImageUrl (Some u).
Proof.
  intros Himgs Hfind Hurl Hne.
  unfold transformProduct. cbn. rewrite Himgs.
  unfold primaryImage, url_or. rewrite Hfind, Hurl.
  assert (Hpresent : absent (Some u) = false)
    by (cbn; now apply String.eqb_neq).
  rewrite Hpresent. auto.
Qed.

Lemma transformProduct_primary_decides_witness :
  view_image_url (transformProduct coat_row)
    = getFullImageUrl (Some "/winter/coat.jpg") /\
  hasValidImage (transformProduct coat_row) = false.
Proof.
  apply (transformProduct_primary_decides coat_row
           [ {| image_url := Some "/winter/coat.jpg"; is_primary := true |};
             {| image_url := Some "https://cdn.example.com/coat.jpg";
                is_primary := false |} ]
           {| image_url := Some "/winter/coat.jpg"; is_primary := true |}
           "/winter/coat.jpg").
  - reflexivity.
  - reflexivity.
  - reflexivity.
  - discriminate.
Defined.

Lemma transformProduct_shown_url (product : product_row) :
  hasValidImage (transformProduct product) = true ->
  exists r,
    view_image_url (transformProduct product) = Some r /\
    startsWith r "http://" || startsWith r "https://" = true.
Proof.
  unfold transformProduct. cbn. intros Hvalid.
  destruct (isValidImageUrl_present _ Hvalid) as (u & -> & Hne).
  assert (Hpresent : absent (Some u) = false)
    by (cbn; now apply String.eqb_neq).
  unfold getFullImageUrl. rewrite Hpresent.
  destruct (startsWith u "http://" || startsWith u "https://") eqn:Hfull.
  - eauto.
  - eexists. split; [reflexivity | ]. apply storage_url_is_full.
Qed.

(** X20. The listing pipeline shows rows in their order, drops some and
    adds none; every product it shows carries a full image URL. With no
    rows at all (null from the query) it shows nothing. *)
Theorem shown_products_have_images (products : option (list product_row)) :
  (length (shown_products products) <= length (default [] products))%nat /\
  (forall v,
     In v (shown_products products) ->
     In v (List.map transformProduct (default [] products)) /\
     exists r,
       view_image_url v = Some r /\
       startsWith r "http://" || startsWith r "https://" = true) /\
  (products = None -> shown_products products = []).
Proof.
  unfold shown_products. split; [ | split].
  - rewrite <- (length_map transformProduct (default [] products)).
    apply filter_length_le.
  - intros v Hin. apply filter_In in Hin. destruct Hin as (Hin & Hvalid).
    split; [exact Hin | ].
    apply in_map_iff in Hin. destruct Hin as (row & <- & _).
    destruct (transformProduct_shown_url row Hvalid) as (r & Hr & Hfull).
    eauto.
  - intros ->. reflexivity.
Qed.

(** * The timer race *)

(** X21. A promise raced against a timer always settles, by the delay of
    the timer at the latest; and racing it again against a timer that is
    not shorter changes nothing: the first bound is the one that
    holds. *)
Theorem withTimeout_nested {A : Type} (p : promise A) (a b : Z) :
  a <= b ->
  (exists d o, withTimeout p a = Settles d o /\ (d <= Z.to_N a)%N) /\
  withTimeout (withTimeout p a) b = withTimeout p a.
Proof.
  intros Hab. unfold withTimeout.
  destruct p as [d o|].
  - destruct (d <=? Z.to_N a)%N eqn:Hd; bool_facts.
    + split; [eauto | ].
      destruct (d <=? Z.to_N b)%N eqn:Hd'; bool_facts; [reflexivity | lia].
    + split; [eexists _, _; split; [reflexivity | lia] | ].
      destruct (Z.to_N a <=? Z.to_N b)%N eqn:Hd'; bool_facts;
        [reflexivity | lia].
  - split; [eexists _, _; split; [reflexivity | lia] | ].
    destruct (Z.to_N a <=? Z.to_N b)%N eqn:Hd'; bool_facts;
      [reflexivity | lia].
Qed.

Lemma withTimeout_nested_witness :
  withTimeout (withTimeout (fetch_hanging 0%nat) 1000) 10000
  = withTimeout (fetch_hanging 0%nat) 1000.
Proof.
  apply (withTimeout_nested (fetch_hanging 0%nat) 1000 10000). lia.
Defined.
